(** * Overlap detection of the analytics panel (AnalyticsPanel.tsx)

    A shallow embedding of the block matcher, the span mapper, the range
    merger and the highlight renderer, with the properties the
    specification states about them.

    Conventions of the embedding:
    - JavaScript numbers that hold token indexes, sizes and character
      offsets are integers, modelled as [Z];
    - a JavaScript string is the list of its UTF-16 code units;
    - an array is a list; [a[i]] is [zlookup a i], which is [None]
      ([undefined]) outside the array;
    - [TextSpan] objects are mutated by [mergeRanges], so they live in an
      explicit store and arrays of spans are arrays of references;
      [MatchBlock] and [TokenSpan] objects are never written after their
      creation and are modelled as values. *)

From Stdlib Require Import ZArith Lia.
From stdpp Require Import base tactics option numbers list sorting strings.

Local Open Scope Z_scope.

(** ** Data model *)

Abbreviation jsstring := (list Z).

Record TokenSpan := mkTokenSpan { token : jsstring; tok_start : Z; tok_end : Z }.
Record MatchBlock := mkMatchBlock { aStart : Z; bStart : Z; size : Z }.
Record TextSpan := mkTextSpan { start : Z; end_ : Z }.

Global Instance TextSpan_eq_dec : EqDecision TextSpan.
Proof. solve_decision. Defined.
Global Instance TextSpan_inhabited : Inhabited TextSpan := populate (mkTextSpan 0 0).

(** ASCII text as a JavaScript string, for the examples. *)
Definition js (s : string) : jsstring :=
  (λ c, Z.of_nat (Ascii.nat_of_ascii c)) <$> String.list_ascii_of_string s.

(** ** Arrays and loops *)

(** [l[i]] for an integer index: [None] is JavaScript's [undefined]. *)
Definition zlookup {A} (l : list A) (i : Z) : option A :=
  if decide (0 <= i) then l !! Z.to_nat i else None.

(** Read of a numeric array cell. The rows have [bLen + 1] cells and the
    code reads and writes the cells [j - bLo] and [j - bLo + 1] for
    [bLo <= j < bHi] only, so no access leaves the array. *)
Definition aget (l : list Z) (k : Z) : Z := default 0 (zlookup l k).

(** [l[k] = v] for [0 <= k < l.length]. *)
Definition aset (l : list Z) (k : Z) (v : Z) : list Z :=
  if decide (0 <= k) then <[Z.to_nat k := v]> l else l.

(** [for (let i = lo; i < hi; i++) s = body(i, s)] *)
Definition for_range {St} (lo hi : Z) (body : Z → St → St) (s : St) : St :=
  foldl (λ s i, body i s) s (seqZ lo (hi - lo)).

(** ** Block matcher: findLongestCommonBlock *)

(** The running maximum: [(bestSize, bestAEnd, bestBEnd)]. *)
Abbreviation best_t := (Z * Z * Z)%type.

(** [a[i] === b[j]] *)
Definition tok_eq (a b : list jsstring) (i j : Z) : bool :=
  bool_decide (zlookup a i = zlookup b j).

(** Body of the inner loop over [j]. *)
Definition cell_step (a b : list jsstring) (bLo : Z) (prev : list Z) (i j : Z)
    (st : list Z * best_t) : list Z * best_t :=
  let '(curr, (bestSize, bestAEnd, bestBEnd)) := st in
  if tok_eq a b i j then
    let val := aget prev (j - bLo) + 1 in
    let curr := aset curr (j - bLo + 1) val in
    if bool_decide (val > bestSize) then (curr, (val, i + 1, j + 1))
    else (curr, (bestSize, bestAEnd, bestBEnd))
  else st.

(** [for (let k = 0; k < curr.length; k++) prev[k] = curr[k]] *)
Definition copy_row (prev curr : list Z) : list Z :=
  for_range 0 (Z.of_nat (length curr)) (λ k p, aset p k (aget curr k)) prev.

(** Body of the outer loop over [i]. *)
Definition row_step (a b : list jsstring) (bLo bHi : Z) (i : Z)
    (st : list Z * best_t) : list Z * best_t :=
  let '(prev, best) := st in
  let curr0 := replicate (Z.to_nat (bHi - bLo + 1)) 0 in
  let '(curr, best) := for_range bLo bHi (cell_step a b bLo prev i) (curr0, best) in
  (copy_row prev curr, best).

Definition findLongestCommonBlock (a b : list jsstring) (aLo aHi bLo bHi : Z)
    : MatchBlock :=
  let bLen := bHi - bLo in
  if bool_decide (aLo >= aHi) || bool_decide (bLo >= bHi) || bool_decide (bLen <= 0)
  then mkMatchBlock aLo bLo 0
  else
    let prev0 := replicate (Z.to_nat (bLen + 1)) 0 in
    let '(_, (bestSize, bestAEnd, bestBEnd)) :=
      for_range aLo aHi (row_step a b bLo bHi) (prev0, (0, aLo, bLo)) in
    mkMatchBlock (bestAEnd - bestSize) (bestBEnd - bestSize) bestSize.

(** ** Block matcher: findMatchingBlocks *)

Record Region := mkRegion { aLo : Z; aHi : Z; bLo : Z; bHi : Z }.

(** Stable insertion sort by an integer key: what [Array.prototype.sort]
    returns for the comparator [(x, y) => key(x) - key(y)]. *)
Section sort_by.
Context {A : Type} (key : A → Z).

Fixpoint insert_by (x : A) (l : list A) : list A :=
  match l with
  | [] => [x]
  | y :: l' => if bool_decide (key x <= key y) then x :: l else y :: insert_by x l'
  end.

Definition sort_by (l : list A) : list A := foldr insert_by [] l.
End sort_by.

(** State of the [while] loop: the [pending] stack, whose top (the last
    element of the JavaScript array) is the head of the list, and the
    [blocks] found so far, in the order of their [push]. *)
Abbreviation fmb_state := (list Region * list MatchBlock)%type.

(** One iteration of [while (pending.length)]; [None] when the loop is over. *)
Definition fmb_step (a b : list jsstring) (minMatchWords : Z) (st : fmb_state)
    : option fmb_state :=
  match st with
  | ([], _) => None
  | (range :: pending, blocks) =>
      let best := findLongestCommonBlock a b (aLo range) (aHi range) (bLo range) (bHi range) in
      if bool_decide (size best < minMatchWords) then Some (pending, blocks)
      else
        Some (mkRegion (aStart best + size best) (aHi range)
                       (bStart best + size best) (bHi range)
              :: mkRegion (aLo range) (aStart best) (bLo range) (bStart best)
              :: pending,
              blocks ++ [best])
  end.

(** The loop, bounded by [fuel] iterations: [None] when the bound is hit
    before [pending] is empty. *)
Fixpoint fmb_loop (fuel : nat) (a b : list jsstring) (minMatchWords : Z)
    (st : fmb_state) : option (list MatchBlock) :=
  match fmb_step a b minMatchWords st with
  | None => Some (snd st)
  | Some st' =>
      match fuel with
      | O => None
      | S fuel' => fmb_loop fuel' a b minMatchWords st'
      end
  end.

Definition fmb_init (a b : list jsstring) : fmb_state :=
  ([mkRegion 0 (Z.of_nat (length a)) 0 (Z.of_nat (length b))], []).

Definition findMatchingBlocks (fuel : nat) (a b : list jsstring) (minMatchWords : Z)
    : option (list MatchBlock) :=
  sort_by aStart <$> fmb_loop fuel a b minMatchWords (fmb_init a b).

(** ** The store of [TextSpan] objects *)

(** A reference is the position of the object in the store; a new object
    goes to the end of the store. *)
Abbreviation loc := nat (only parsing).
Abbreviation heap := (list TextSpan) (only parsing).

(** [{ start: .., end: .. }] and [{ ...curr }]: a new object. *)
Definition alloc (h : heap) (v : TextSpan) : heap * loc := (h ++ [v], length h).

(** The spans an array of references holds, as values. *)
Definition values (h : heap) (refs : list loc) : list TextSpan := (h !!!.) <$> refs.

(** ** Range merger: mergeRanges *)

(** Body of the loop; [c] is the reference [sorted[i]]. *)
Definition merge_step (st : heap * list loc) (c : loc) : heap * list loc :=
  let '(h, merged) := st in
  let last := default 0%nat (last merged) in
  let curr := h !!! c in
  if bool_decide (start curr <= end_ (h !!! last)) then
    (<[last := mkTextSpan (start (h !!! last)) (Z.max (end_ (h !!! last)) (end_ curr))]> h,
     merged)
  else
    let '(h', l) := alloc h curr in (h', merged ++ [l]).

(** [sorted] is a new array of the same objects, [merged] starts with
    the object [sorted[0]] itself. The sorted array of a non-empty array
    is not empty, so the inner [[]] case is never taken. *)
Definition mergeRanges (h : heap) (ranges : list loc) : heap * list loc :=
  match ranges with
  | [] => (h, [])
  | _ :: _ =>
      match sort_by (λ l, start (h !!! l)) ranges with
      | [] => (h, [])
      | s0 :: rest => foldl merge_step (h, [s0]) rest
      end
  end.

(** The fold of the specification, on values: keep a [current] span,
    extend it by each next span that starts at or before its end, emit it
    when the next span starts after its end. *)
Fixpoint merge_fold (current : TextSpan) (rest : list TextSpan) : list TextSpan :=
  match rest with
  | [] => [current]
  | next :: rest' =>
      if bool_decide (start next <= end_ current)
      then merge_fold (mkTextSpan (start current) (Z.max (end_ current) (end_ next))) rest'
      else current :: merge_fold next rest'
  end.

(** The range merger of the specification: sort by [start], then fold. *)
Definition merge_spec (ranges : list TextSpan) : list TextSpan :=
  match sort_by start ranges with
  | [] => []
  | s0 :: rest => merge_fold s0 rest
  end.

(** ** Span mapper: blocksToCharRanges *)

Inductive side := SideA | SideB.

(** What one iteration of the loop does with a block. [Throw] is the
    [TypeError] of reading [start] or [end] of [undefined]. *)
Inductive emit := Skip | Emit (s : TextSpan) | Throw.

(** [side === 'a' ? block.aStart : block.bStart] *)
Definition side_start (sd : side) (block : MatchBlock) : Z :=
  match sd with SideA => aStart block | SideB => bStart block end.

Definition block_range (spans : list TokenSpan) (sd : side) (block : MatchBlock) : emit :=
  let tokenStart := side_start sd block in
  let tokenEnd := tokenStart + size block - 1 in
  if bool_decide (tokenStart < 0) || bool_decide (tokenEnd >= Z.of_nat (length spans))
  then Skip
  else
    match zlookup spans tokenStart, zlookup spans tokenEnd with
    | Some first, Some last => Emit (mkTextSpan (tok_start first) (tok_end last))
    | _, _ => Throw
    end.

(** The loop over [blocks]; [None] when an iteration throws. *)
Fixpoint collect_ranges (spans : list TokenSpan) (sd : side) (blocks : list MatchBlock)
    (st : heap * list loc) : option (heap * list loc) :=
  match blocks with
  | [] => Some st
  | block :: blocks' =>
      match block_range spans sd block with
      | Skip => collect_ranges spans sd blocks' st
      | Emit s =>
          let '(h', l) := alloc st.1 s in
          collect_ranges spans sd blocks' (h', st.2 ++ [l])
      | Throw => None
      end
  end.

Definition blocksToCharRanges (h : heap) (blocks : list MatchBlock)
    (spans : list TokenSpan) (sd : side) : option (heap * list loc) :=
  '(h', ranges) ← collect_ranges spans sd blocks (h, []);
  Some (mergeRanges h' ranges).

(** ** Highlight renderer: highlightByRanges *)

Inductive node_key := KeyT (idx : nat) | KeyM (idx : nat) | KeyTail.

(** [<React.Fragment key=..>text</React.Fragment>] and [<mark key=..>text</mark>]. *)
Inductive node :=
  | Fragment (key : node_key) (text : jsstring)
  | Mark (key : node_key) (text : jsstring).

(** The function returns the string itself or an array of nodes. *)
Inductive ReactNode := RText (text : jsstring) | RNodes (nodes : list node).

(** [text.slice(from, to)], with JavaScript's treatment of negative and
    too large indexes. *)
Definition slice (text : jsstring) (from to : Z) : jsstring :=
  let len := Z.of_nat (length text) in
  let f := if bool_decide (from < 0) then Z.max (len + from) 0 else Z.min from len in
  let t := if bool_decide (to < 0) then Z.max (len + to) 0 else Z.min to len in
  take (Z.to_nat (t - f)) (drop (Z.to_nat f) text).

(** [text.slice(from)] *)
Definition slice_from (text : jsstring) (from : Z) : jsstring :=
  slice text from (Z.of_nat (length text)).

(** Body of [ranges.forEach((range, idx) => ..)] on [(nodes, cursor)]. *)
Definition highlight_step (text : jsstring) (st : list node * Z) (idx : nat)
    (range : TextSpan) : list node * Z :=
  let '(nodes, cursor) := st in
  let nodes :=
    if bool_decide (start range > cursor)
    then nodes ++ [Fragment (KeyT idx) (slice text cursor (start range))]
    else nodes in
  (nodes ++ [Mark (KeyM idx) (slice text (start range) (end_ range))], end_ range).

Fixpoint highlight_loop (text : jsstring) (idx : nat) (ranges : list TextSpan)
    (st : list node * Z) : list node * Z :=
  match ranges with
  | [] => st
  | range :: ranges' =>
      highlight_loop text (S idx) ranges' (highlight_step text st idx range)
  end.

Definition highlightByRanges (text : jsstring) (ranges : list TextSpan) : ReactNode :=
  match ranges with
  | [] => RText text
  | _ :: _ =>
      let '(nodes, cursor) := highlight_loop text 0 ranges ([], 0) in
      RNodes (if bool_decide (cursor < Z.of_nat (length text))
              then nodes ++ [Fragment KeyTail (slice_from text cursor)]
              else nodes)
  end.

Definition node_text (n : node) : jsstring :=
  match n with Fragment _ t | Mark _ t => t end.

(** The text a rendered node shows. *)
Definition rendered_text (r : ReactNode) : jsstring :=
  match r with
  | RText t => t
  | RNodes nodes => concat (node_text <$> nodes)
  end.

(** ** Tokenizer: tokenizeWithSpans *)

(** The code units of the class [[a-z0-9']] under the flag [i]. *)
Definition is_word_unit (c : Z) : bool :=
  bool_decide (97 <= c <= 122) || bool_decide (65 <= c <= 90) ||
  bool_decide (48 <= c <= 57) || bool_decide (c = 39).

(** [toLowerCase] on a code unit of that class. *)
Definition lower_unit (c : Z) : Z := if bool_decide (65 <= c <= 90) then c + 32 else c.

(** The token for the run [run] that ends before position [pos]. *)
Definition close_run (pos : Z) (run : jsstring) : list TokenSpan :=
  match run with
  | [] => []
  | _ :: _ => [mkTokenSpan (lower_unit <$> run) (pos - Z.of_nat (length run)) pos]
  end.

(** The successive matches of the regular expression from position [pos]
    on, [run] being the units of the match under way. *)
Fixpoint tokenize_from (pos : Z) (run : jsstring) (text : jsstring) : list TokenSpan :=
  match text with
  | [] => close_run pos run
  | c :: text' =>
      if is_word_unit c then tokenize_from (pos + 1) (run ++ [c]) text'
      else close_run pos run ++ tokenize_from (pos + 1) [] text'
  end.

Definition tokenizeWithSpans (text : jsstring) : list TokenSpan :=
  tokenize_from 0 [] text.

(** ** The overlap computation of the panel: overlapRanges *)

(** [{ human: .., ai: .. }], with the store the two arrays refer to;
    [None] when the matcher does not end within [fuel] iterations or the
    span mapper throws. *)
Definition overlapRanges (fuel : nat) (h : heap) (finalHumanSubmission totalAiOutput : jsstring)
    : option (heap * (list loc * list loc)) :=
  let humanSpans := tokenizeWithSpans finalHumanSubmission in
  let aiSpans := tokenizeWithSpans totalAiOutput in
  let humanTokens := token <$> humanSpans in
  let aiTokens := token <$> aiSpans in
  blocks ← findMatchingBlocks fuel humanTokens aiTokens 3;
  '(h1, human) ← blocksToCharRanges h blocks humanSpans SideA;
  '(h2, ai) ← blocksToCharRanges h1 blocks aiSpans SideB;
  Some (h2, (human, ai)).

(** ** The session log (types.ts, db.ts, App.tsx) *)

Module EventName.
Inductive t := ESSAY_WRITING | CHAT | SYSTEM.
End EventName.

(** ['user'], ['AI'] and ['system']. *)
Module EventBy.
Inductive t := USER | AI | SYSTEM.
End EventBy.

Global Instance EventName_eq_dec : EqDecision EventName.t.
Proof. solve_decision. Defined.
Global Instance EventBy_eq_dec : EqDecision EventBy.t.
Proof. solve_decision. Defined.

Record WritingEvent := mkWritingEvent {
  session_id : jsstring;
  user_name : jsstring;
  event_start_time : Z;
  event_name : EventName.t;
  event_by : EventBy.t;
  event_result : jsstring
}.

(** The event [handleFinalSubmission(reason)] hands to [logEvent]
    ([event_result] is [`${reason}: ${contentRef.current}`]), with the
    time [logEvent] stamps it with, [now]. *)
Definition final_submission_event (sessionId userName reason content : jsstring) (now : Z)
    : WritingEvent :=
  mkWritingEvent sessionId userName now EventName.SYSTEM EventBy.USER
    (reason ++ js ": " ++ content).

(** ** The panel: what it reads from the log *)

(** The code units of the class [\s]. *)
Definition is_space_unit (c : Z) : bool :=
  bool_decide (9 <= c <= 13) || bool_decide (c = 32) || bool_decide (c = 160) ||
  bool_decide (c = 5760) || bool_decide (8192 <= c <= 8202) ||
  bool_decide (c = 8232) || bool_decide (c = 8233) || bool_decide (c = 8239) ||
  bool_decide (c = 8287) || bool_decide (c = 12288) || bool_decide (c = 65279).

(** [text.split(/\s+/)]: the pieces between the runs of white space;
    [piece] is the piece under way and [in_space] tells that the unit
    before was white space. *)
Fixpoint split_spaces_from (piece : jsstring) (in_space : bool) (text : jsstring)
    : list jsstring :=
  match text with
  | [] => [piece]
  | c :: text' =>
      if is_space_unit c then
        if in_space then split_spaces_from piece true text'
        else piece :: split_spaces_from [] true text'
      else split_spaces_from (piece ++ [c]) false text'
  end.

(** [text.split(/\s+/).filter(Boolean).length || 0] *)
Definition word_count (text : jsstring) : Z :=
  Z.of_nat (length (filter (λ w, w ≠ []) (split_spaces_from [] false text))).

(** [logs.filter(l => l.session_id === sessionId)] *)
Definition sessionLogs (logs : list WritingEvent) (sessionId : jsstring) : list WritingEvent :=
  filter (λ l, session_id l = sessionId) logs.

(** [.sort((a, b) => a.event_start_time - b.event_start_time)[0]], then
    [?.event_start_time || 0] for the second. *)
Definition sessionStartTime (sessionLogs : list WritingEvent) : Z :=
  let explicitStart :=
    head (sort_by event_start_time
            (filter (λ l, event_name l = EventName.SYSTEM
                          ∧ event_result l = js "SESSION_STARTED") sessionLogs)) in
  match explicitStart with
  | Some e => event_start_time e
  | None =>
      match head (sort_by event_start_time sessionLogs) with
      | Some e => event_start_time e
      | None => 0
      end
  end.

Record Point := mkPoint { time : Z; elapsedSec : Z; words : Z }.

Record ChartMeta := mkChartMeta {
  maxWords : Z; midWords : Z; endSeconds : Z; midSeconds : Z
}.

(** [Math.max(...xs, 1)] *)
Definition max_with_1 (xs : list Z) : Z := foldr Z.max 1 xs.

Section panel.
(** [Math.round(x / d)] for integers [x] and [d]: a computation on
    floating-point numbers, which the panel is modelled for whatever it
    gives. *)
Variable round_div : Z → Z → Z.

(** The callback of [.map], with the variable [total] it updates. *)
Fixpoint series_from (sessionStartTime total : Z) (events : list WritingEvent)
    : list Point :=
  match events with
  | [] => []
  | l :: events' =>
      let words := word_count (event_result l) in
      let total := Z.max total words in
      mkPoint (event_start_time l)
        (Z.max 0 (round_div (event_start_time l - sessionStartTime) 1000)) total
      :: series_from sessionStartTime total events'
  end.

Definition cumulativeSeries (sessionLogs : list WritingEvent) (sessionStartTime : Z)
    : list Point :=
  series_from sessionStartTime 0
    (sort_by event_start_time
       (filter (λ l, event_name l = EventName.ESSAY_WRITING) sessionLogs)).

Definition chartMeta (cumulativeSeries : list Point) : ChartMeta :=
  match cumulativeSeries with
  | [] => mkChartMeta 0 0 0 0
  | _ :: _ =>
      let maxWords := max_with_1 (words <$> cumulativeSeries) in
      let midWords := round_div maxWords 2 in
      let endSeconds := max_with_1 (elapsedSec <$> cumulativeSeries) in
      let midSeconds := round_div endSeconds 2 in
      mkChartMeta maxWords midWords endSeconds midSeconds
  end.
End panel.

(** [.filter(..).map(l => l.event_result).filter(Boolean)] *)
Definition aiOutputs (sessionLogs : list WritingEvent) : list jsstring :=
  filter (λ r, r ≠ [])
    (event_result <$>
       filter (λ l, event_name l = EventName.CHAT ∧ event_by l = EventBy.AI) sessionLogs).

(** [parts.join(sep)] *)
Fixpoint join (sep : jsstring) (parts : list jsstring) : jsstring :=
  match parts with
  | [] => []
  | [part] => part
  | part :: parts' => part ++ sep ++ join sep parts'
  end.

(** [aiOutputs.join('\n\n')] *)
Definition totalAiOutput (aiOutputs : list jsstring) : jsstring := join [10; 10] aiOutputs.

(** What is left of [text] after the prefix [p], when [text] starts with it. *)
Fixpoint after_prefix (p text : jsstring) : option jsstring :=
  match p, text with
  | [], _ => Some text
  | pc :: p', c :: text' => if bool_decide (c = pc) then after_prefix p' text' else None
  | _ :: _, [] => None
  end.

(** The same under the flag [i], for a prefix of ASCII units: a unit
    matches a letter of the prefix in either case. *)
Fixpoint after_prefix_i (p text : jsstring) : option jsstring :=
  match p, text with
  | [], _ => Some text
  | pc :: p', c :: text' =>
      if bool_decide (lower_unit c = lower_unit pc) then after_prefix_i p' text' else None
  | _ :: _, [] => None
  end.

(** The rest of [text] after its leading white space, [\s*]. *)
Fixpoint drop_spaces (text : jsstring) : jsstring :=
  match text with
  | [] => []
  | c :: text' => if is_space_unit c then drop_spaces text' else text
  end.

(** [/^USER_SUBMITTED:|^TIME_LIMIT_EXPIRED:/.test(r)] *)
Definition is_submission (r : jsstring) : bool :=
  bool_decide (is_Some (after_prefix (js "USER_SUBMITTED:") r)) ||
  bool_decide (is_Some (after_prefix (js "TIME_LIMIT_EXPIRED:") r)).

(** [r.replace(/^(USER_SUBMITTED|TIME_LIMIT_EXPIRED):\s*/i, '')] *)
Definition strip_submission (r : jsstring) : jsstring :=
  match after_prefix_i (js "USER_SUBMITTED:") r with
  | Some rest => drop_spaces rest
  | None =>
      match after_prefix_i (js "TIME_LIMIT_EXPIRED:") r with
      | Some rest => drop_spaces rest
      | None => r
      end
  end.

(** The comparator [(a, b) => b.event_start_time - a.event_start_time]
    sorts by descending time; [.find(p)] is the first element that
    satisfies [p]. *)
Definition finalHumanSubmission (sessionLogs : list WritingEvent) : jsstring :=
  let submissionEvent :=
    head (filter (λ l, is_submission (event_result l) = true)
            (sort_by (λ l, - event_start_time l)
               (filter (λ l, event_name l = EventName.SYSTEM ∧ event_by l = EventBy.USER)
                  sessionLogs))) in
  match submissionEvent with
  | Some e =>
      match event_result e with
      | _ :: _ => strip_submission (event_result e)
      | [] =>
          match head (sort_by (λ l, - event_start_time l)
                        (filter (λ l, event_name l = EventName.ESSAY_WRITING) sessionLogs)) with
          | Some e' => event_result e'
          | None => []
          end
      end
  | None =>
      match head (sort_by (λ l, - event_start_time l)
                    (filter (λ l, event_name l = EventName.ESSAY_WRITING) sessionLogs)) with
      | Some e' => event_result e'
      | None => []
      end
  end.

(** ** Sample inputs *)

(** "x a b c y a b c" and "a b c q a b c", as token arrays. *)
Definition sample_a : list jsstring :=
  [js "x"; js "a"; js "b"; js "c"; js "y"; js "a"; js "b"; js "c"].
Definition sample_b : list jsstring :=
  [js "a"; js "b"; js "c"; js "q"; js "a"; js "b"; js "c"].

(** A store of three spans, the first two overlapping. *)
Definition sample_store : list TextSpan :=
  [mkTextSpan 0 10; mkTextSpan 8 15; mkTextSpan 20 30].

(** ** Specification-level notions for the matcher *)

(** [csuf a b lo_a lo_b n i j]: the length of the longest run of equal
    tokens that ends at [(i, j)] and stays at or after [(lo_a, lo_b)],
    looking back at most [n] cells. *)
Fixpoint csuf (a b : list jsstring) (lo_a lo_b : Z) (n : nat) (i j : Z) : Z :=
  match n with
  | O => 0
  | S n' =>
      if bool_decide (lo_a <= i) && bool_decide (lo_b <= j) && tok_eq a b i j
      then 1 + csuf a b lo_a lo_b n' (i - 1) (j - 1)
      else 0
  end.

(** The table [L[i][j]] of the dynamic programme, for the region that
    starts at [(lo_a, lo_b)]. *)
Definition suffix_len (a b : list jsstring) (lo_a lo_b : Z) (i j : Z) : Z :=
  csuf a b lo_a lo_b (Z.to_nat (i - lo_a + 1)) i j.

(** [size] tokens from [x] in [a] equal the [size] tokens from [y] in [b]. *)
Definition common_block (a b : list jsstring) (x y s : Z) : Prop :=
  ∀ k, 0 <= k < s → zlookup a (x + k) = zlookup b (y + k).

Definition in_region (r : Region) (x y s : Z) : Prop :=
  aLo r <= x ∧ x + s <= aHi r ∧ bLo r <= y ∧ y + s <= bHi r.

(** The result of the search in region [r]: a common block, inside the
    region when it is not empty, no shorter than any common block of the
    region, and ending no later in the sweep than any block of its size. *)
Definition longest_first (a b : list jsstring) (r : Region) (m : MatchBlock) : Prop :=
  0 <= size m ∧
  common_block a b (aStart m) (bStart m) (size m) ∧
  (0 < size m → in_region r (aStart m) (bStart m) (size m)) ∧
  (size m = 0 → aStart m = aLo r ∧ bStart m = bLo r) ∧
  ∀ x y s, 0 < s → in_region r x y s → common_block a b x y s →
    s <= size m ∧
    (s = size m →
       aStart m + size m < x + s ∨
       (aStart m + size m = x + s ∧ bStart m + size m <= y + s)).

(** *** Invariants of the two loops of [findLongestCommonBlock] *)

(** The cells [(i', j')] of region [r] that the sweep has visited when it
    is about to visit [(i, j)]. *)
Definition seen (r : Region) (i j i' j' : Z) : Prop :=
  aLo r <= i' ∧ bLo r <= j' < bHi r ∧ (i' < i ∨ (i' = i ∧ j' < j)).

(** The running maximum is the value of the first cell, in sweep order,
    that holds the largest value seen so far. *)
Definition best_inv (a b : list jsstring) (r : Region) (i j : Z) (best : best_t) : Prop :=
  let '(bestSize, bestAEnd, bestBEnd) := best in
  0 <= bestSize ∧
  (bestSize = 0 → bestAEnd = aLo r ∧ bestBEnd = bLo r) ∧
  (0 < bestSize →
     seen r i j (bestAEnd - 1) (bestBEnd - 1) ∧
     suffix_len a b (aLo r) (bLo r) (bestAEnd - 1) (bestBEnd - 1) = bestSize) ∧
  (∀ i' j', seen r i j i' j' →
     suffix_len a b (aLo r) (bLo r) i' j' <= bestSize ∧
     (suffix_len a b (aLo r) (bLo r) i' j' = bestSize → 0 < bestSize →
        bestAEnd - 1 < i' ∨ (bestAEnd - 1 = i' ∧ bestBEnd - 1 <= j'))).

(** [row] holds row [i] of the table up to column [j] (excluded), and 0
    after it; cell [k] of the array is column [bLo + k - 1]. *)
Definition row_inv (a b : list jsstring) (r : Region) (i j : Z) (row : list Z) : Prop :=
  length row = Z.to_nat (bHi r - bLo r + 1) ∧
  ∀ k, 0 <= k <= bHi r - bLo r →
    aget row k = if decide (k <= j - bLo r)
                 then suffix_len a b (aLo r) (bLo r) i (bLo r + k - 1) else 0.

(** *** Invariant of the loop of [findMatchingBlocks] *)

(** No index lies in both [[lo1, hi1)] and [[lo2, hi2)]. *)
Definition ival_disjoint (lo1 hi1 lo2 hi2 : Z) : Prop :=
  ∀ x, ¬ (lo1 <= x < hi1 ∧ lo2 <= x < hi2).

(** Two regions share no token index, neither in [a] nor in [b]. *)
Definition apart (r1 r2 : Region) : Prop :=
  ival_disjoint (aLo r1) (aHi r1) (aLo r2) (aHi r2) ∧
  ival_disjoint (bLo r1) (bHi r1) (bLo r2) (bHi r2).

Definition sub_region (r1 r : Region) : Prop :=
  aLo r <= aLo r1 ∧ aHi r1 <= aHi r ∧ bLo r <= bLo r1 ∧ bHi r1 <= bHi r.

(** The token ranges a block occupies. *)
Definition block_region (m : MatchBlock) : Region :=
  mkRegion (aStart m) (aStart m + size m) (bStart m) (bStart m + size m).

Fixpoint pairwise {A} (R : A → A → Prop) (l : list A) : Prop :=
  match l with
  | [] => True
  | x :: l' => Forall (R x) l' ∧ pairwise R l'
  end.

Definition in_bounds (a b : list jsstring) (r : Region) : Prop :=
  0 <= aLo r ∧ aHi r <= Z.of_nat (length a) ∧
  0 <= bLo r ∧ bHi r <= Z.of_nat (length b).

Definition valid_block (a b : list jsstring) (minMatchWords : Z) (m : MatchBlock) : Prop :=
  minMatchWords <= size m ∧
  in_bounds a b (block_region m) ∧
  common_block a b (aStart m) (bStart m) (size m).

Definition fmb_inv (a b : list jsstring) (minMatchWords : Z) (st : fmb_state) : Prop :=
  Forall (in_bounds a b) st.1 ∧
  Forall (valid_block a b minMatchWords) st.2 ∧
  pairwise apart (st.1 ++ (block_region <$> st.2)).

(** Twice the tokens of [a] still to search, plus the regions to pop. *)
Definition fmb_weight (pending : list Region) : nat :=
  foldr (λ r n, (2 * Z.to_nat (aHi r - aLo r) + 1 + n)%nat) 0%nat pending.

(** *** The loop of [mergeRanges], by recursion on the spans to come *)

(** The loop only reads and writes the last reference of [merged]:
    [merge_from h last rest] is the store and the part of [merged] from
    [last] on that the loop leaves, started on [rest] with [last] as the
    last reference of [merged]. *)
Fixpoint merge_from (h : heap) (last : loc) (rest : list loc) : heap * list loc :=
  match rest with
  | [] => (h, [last])
  | c :: rest' =>
      let curr := h !!! c in
      if bool_decide (start curr <= end_ (h !!! last)) then
        merge_from
          (<[last := mkTextSpan (start (h !!! last)) (Z.max (end_ (h !!! last)) (end_ curr))]> h)
          last rest'
      else
        let '(h', out) := merge_from (h ++ [curr]) (length h) rest' in
        (h', last :: out)
  end.

(** Sorted by [start], and each span ends before the next one starts. *)
Definition by_start (x y : TextSpan) : Prop := start x <= start y.
Definition gap (x y : TextSpan) : Prop := end_ x < start y.
Definition well_formed (x : TextSpan) : Prop := start x <= end_ x.

(** *** Tokens and blocks as the span mapper expects them *)

(** Tokens in the order of the text, none of them overlapping the next. *)
Definition tokens_ordered (spans : list TokenSpan) : Prop :=
  Forall (λ t, tok_start t <= tok_end t) spans ∧
  StronglySorted (λ x y, tok_end x <= tok_start y) spans.

(** The tokens of the block on side [sd] exist: the block is not empty
    and lies within the [n] tokens of that side. *)
Definition block_within (sd : side) (n : nat) (block : MatchBlock) : Prop :=
  1 <= size block ∧ 0 <= side_start sd block ∧
  side_start sd block + size block <= Z.of_nat n.

(** *** The order of the blocks *)

(** [r1] ends, in [a] and in [b], at or before the start of [r2]. *)
Definition precedes (r1 r2 : Region) : Prop :=
  aHi r1 <= aLo r2 ∧ bHi r1 <= bLo r2.

Definition chained (r1 r2 : Region) : Prop := precedes r1 r2 ∨ precedes r2 r1.

(** *** Tokens in their text *)

(** [t] is the token of a run [w] of word units of [full] that no word
    unit comes before or follows. *)
Definition token_of (full : jsstring) (t : TokenSpan) : Prop :=
  ∃ pre w post,
    full = pre ++ w ++ post ∧
    tok_start t = Z.of_nat (length pre) ∧
    tok_end t = Z.of_nat (length pre) + Z.of_nat (length w) ∧
    token t = lower_unit <$> w ∧
    w ≠ [] ∧
    Forall (λ c, is_word_unit c = true) w ∧
    (∀ c, last pre = Some c → is_word_unit c = false) ∧
    (∀ c, head post = Some c → is_word_unit c = false).

(** The token [t], [d] units further in the text. *)
Definition shift_token (d : Z) (t : TokenSpan) : TokenSpan :=
  mkTokenSpan (token t) (tok_start t + d) (tok_end t + d).

(** *** Characters in a span *)

(** The character at offset [x] is in the span [[start, end)]. *)
Definition covers (x : Z) (s : TextSpan) : Prop := start s <= x ∧ x < end_ s.

(** *** What the span mapper and the renderer produce *)

(** The spans the loop of [blocksToCharRanges] pushes, in order. *)
Definition emitted (spans : list TokenSpan) (sd : side) (blocks : list MatchBlock)
    : list TextSpan :=
  omap (λ b, match block_range spans sd b with Emit s => Some s | _ => None end) blocks.

(** The texts of the [<mark>] nodes, in order. *)
Definition marks (nodes : list node) : list jsstring :=
  omap (λ n, match n with Mark _ t => Some t | Fragment _ _ => None end) nodes.

Definition node_key_of (n : node) : node_key :=
  match n with Fragment k _ | Mark k _ => k end.

(** The key is [t-i] or [m-i] for some [i] below [idx]. *)
Definition key_below (idx : nat) (k : node_key) : Prop :=
  match k with KeyT i | KeyM i => (i < idx)%nat | KeyTail => False end.

(** ** Arrays and loops: lemmas *)

Lemma for_range_nil {St} lo hi (body : Z → St → St) s :
  hi <= lo → for_range lo hi body s = s.
Proof. intros. unfold for_range. by rewrite seqZ_nil by lia. Qed.

Lemma for_range_snoc {St} lo hi (body : Z → St → St) s :
  lo <= hi → for_range lo (hi + 1) body s = body hi (for_range lo hi body s).
Proof.
  intros. unfold for_range.
  replace (hi + 1 - lo) with ((hi - lo) + 1) by lia.
  rewrite seqZ_app, foldl_app by lia.
  rewrite (seqZ_cons _ 1) by lia. rewrite (seqZ_nil _ (Z.pred 1)) by lia.
  simpl. f_equal. lia.
Qed.

(** Loop invariants: [I lo] holds at the entry, each iteration takes [I i]
    to [I (i + 1)], so [I hi] holds at the exit. *)
Lemma for_range_ind {St} (I : Z → St → Prop) lo hi (body : Z → St → St) s :
  lo <= hi → I lo s →
  (∀ i s', lo <= i < hi → I i s' → I (i + 1) (body i s')) →
  I hi (for_range lo hi body s).
Proof.
  intros Hle H0 Hstep.
  assert (∀ n : nat, lo + Z.of_nat n <= hi →
            I (lo + Z.of_nat n) (for_range lo (lo + Z.of_nat n) body s)) as Hn.
  { induction n as [|n IH]; intros Hb.
    - rewrite for_range_nil by lia. by replace (lo + Z.of_nat 0) with lo by lia.
    - replace (lo + Z.of_nat (S n)) with ((lo + Z.of_nat n) + 1) by lia.
      rewrite for_range_snoc by lia. apply Hstep; [lia|]. apply IH. lia. }
  specialize (Hn (Z.to_nat (hi - lo))).
  replace (lo + Z.of_nat (Z.to_nat (hi - lo))) with hi in Hn by lia. apply Hn. lia.
Qed.

Lemma aget_lookup l k x : 0 <= k → l !! Z.to_nat k = Some x → aget l k = x.
Proof. intros ? H. unfold aget, zlookup. rewrite decide_True by done. by rewrite H. Qed.

Lemma length_aset l k v : length (aset l k v) = length l.
Proof. unfold aset. case_decide; [apply length_insert|done]. Qed.

Lemma aget_aset_eq l k v : 0 <= k < Z.of_nat (length l) → aget (aset l k v) k = v.
Proof.
  intros. unfold aset. rewrite decide_True by lia.
  apply aget_lookup; [lia|]. apply list_lookup_insert_eq. lia.
Qed.

Lemma aget_aset_ne l k k' v : k ≠ k' → aget (aset l k v) k' = aget l k'.
Proof.
  intros. unfold aset, aget, zlookup. repeat case_decide; try done.
  rewrite list_lookup_insert_ne by lia. done.
Qed.

Lemma aget_replicate n k : aget (replicate n 0) k = 0.
Proof.
  unfold aget, zlookup. case_decide; [|done].
  destruct (replicate n 0 !! Z.to_nat k) eqn:E; [|done].
  apply lookup_replicate in E as [-> _]. done.
Qed.

Lemma aget_ext l1 l2 :
  length l1 = length l2 →
  (∀ k, 0 <= k < Z.of_nat (length l1) → aget l1 k = aget l2 k) → l1 = l2.
Proof.
  intros Hlen Hk. apply list_eq_same_length with (length l1); [done..|].
  intros i x y Hi Hx Hy.
  specialize (Hk (Z.of_nat i) ltac:(lia)).
  rewrite (aget_lookup l1 _ x), (aget_lookup l2 _ y) in Hk; rewrite ?Nat2Z.id; auto with lia.
Qed.

(** The copy loop overwrites the whole of [prev] when the rows have the
    same length, which they always have. *)
Lemma copy_row_same_length prev curr :
  length prev = length curr → copy_row prev curr = curr.
Proof.
  intros Hlen. unfold copy_row.
  pose (I := λ (k : Z) (p : list Z),
    length p = length curr ∧ ∀ k', 0 <= k' < k → aget p k' = aget curr k').
  assert (I (Z.of_nat (length curr))
            (for_range 0 (Z.of_nat (length curr)) (λ k p, aset p k (aget curr k)) prev))
    as [Hl Hk].
  { apply for_range_ind; [lia| |].
    - split; [done|]. intros; lia.
    - intros i p Hi [Hl Hk]. split; [by rewrite length_aset|].
      intros k' Hk'. destruct (decide (k' = i)) as [->|].
      + apply aget_aset_eq. lia.
      + rewrite aget_aset_ne by done. apply Hk. lia. }
  apply aget_ext; [done|]. intros k Hk'. apply Hk. lia.
Qed.

(** ** The table of common suffix lengths *)

Section suffix_len_facts.
Context (a b : list jsstring) (lo_a lo_b : Z).
Local Abbreviation L := (suffix_len a b lo_a lo_b).

Lemma tok_eq_true i j : tok_eq a b i j = true ↔ zlookup a i = zlookup b j.
Proof. unfold tok_eq. apply bool_decide_eq_true. Qed.

Lemma csuf_nonneg n i j : 0 <= csuf a b lo_a lo_b n i j.
Proof.
  revert i j. induction n as [|n IH]; intros i j; simpl; [lia|].
  destruct (_ && _); [|lia]. specialize (IH (i - 1) (j - 1)). lia.
Qed.

Lemma csuf_sound n i j k :
  0 <= k < csuf a b lo_a lo_b n i j →
  lo_a <= i - k ∧ lo_b <= j - k ∧ zlookup a (i - k) = zlookup b (j - k).
Proof.
  revert i j k. induction n as [|n IH]; intros i j k; simpl; [lia|].
  destruct (_ && _) eqn:E; [|lia]. intros Hk.
  apply andb_true_iff in E as [E Ht]. apply andb_true_iff in E as [Ha Hb].
  apply bool_decide_eq_true in Ha, Hb. apply tok_eq_true in Ht.
  destruct (decide (k = 0)) as [->|].
  - rewrite !Z.sub_0_r. done.
  - destruct (IH (i - 1) (j - 1) (k - 1)) as (?&?&?); [lia|].
    replace (i - k) with (i - 1 - (k - 1)) by lia.
    replace (j - k) with (j - 1 - (k - 1)) by lia. done.
Qed.

Lemma csuf_max n i j s :
  s <= Z.of_nat n →
  (∀ k, 0 <= k < s →
     lo_a <= i - k ∧ lo_b <= j - k ∧ zlookup a (i - k) = zlookup b (j - k)) →
  s <= csuf a b lo_a lo_b n i j.
Proof.
  revert i j s. induction n as [|n IH]; intros i j s Hn Hs; simpl; [lia|].
  destruct (decide (s <= 0)) as [|Hpos].
  { pose proof (csuf_nonneg (S n) i j) as Hnn. simpl in Hnn. lia. }
  destruct (Hs 0) as (Ha & Hb & Ht); [lia|]. rewrite !Z.sub_0_r in *.
  rewrite !bool_decide_eq_true_2 by done.
  apply tok_eq_true in Ht. rewrite Ht. simpl.
  enough (s - 1 <= csuf a b lo_a lo_b n (i - 1) (j - 1)) by lia.
  apply IH; [lia|]. intros k Hk. destruct (Hs (k + 1)) as (?&?&?); [lia|].
  replace (i - 1 - k) with (i - (k + 1)) by lia.
  replace (j - 1 - k) with (j - (k + 1)) by lia. done.
Qed.

Lemma suffix_len_nonneg i j : 0 <= L i j.
Proof. apply csuf_nonneg. Qed.

Lemma suffix_len_out i j : i < lo_a ∨ j < lo_b → L i j = 0.
Proof.
  intros H. unfold suffix_len. destruct (Z.to_nat (i - lo_a + 1)) eqn:E; [done|].
  simpl. destruct H; [lia|]. rewrite (bool_decide_eq_false_2 (lo_b <= j)) by lia.
  by rewrite andb_false_r.
Qed.

Lemma suffix_len_step i j :
  lo_a <= i → lo_b <= j →
  L i j = if tok_eq a b i j then 1 + L (i - 1) (j - 1) else 0.
Proof.
  intros Hi Hj. unfold suffix_len.
  replace (Z.to_nat (i - lo_a + 1)) with (S (Z.to_nat (i - 1 - lo_a + 1))) by lia.
  simpl. by rewrite !bool_decide_eq_true_2 by done.
Qed.

Lemma suffix_len_sound i j k :
  0 <= k < L i j →
  lo_a <= i - k ∧ lo_b <= j - k ∧ zlookup a (i - k) = zlookup b (j - k).
Proof. apply csuf_sound. Qed.

Lemma suffix_len_max i j s :
  (∀ k, 0 <= k < s →
     lo_a <= i - k ∧ lo_b <= j - k ∧ zlookup a (i - k) = zlookup b (j - k)) →
  s <= L i j.
Proof.
  intros Hs. destruct (decide (s <= 0)).
  { pose proof (suffix_len_nonneg i j). lia. }
  apply csuf_max; [|done]. destruct (Hs (s - 1)); lia.
Qed.
End suffix_len_facts.

(** ** The dynamic programme computes the table *)

Section sweep.
Context (a b : list jsstring) (r : Region).
Local Abbreviation L := (suffix_len a b (aLo r) (bLo r)).
Hypothesis Hb : bLo r < bHi r.

Lemma row_inv_init i : row_inv a b r i (bLo r) (replicate (Z.to_nat (bHi r - bLo r + 1)) 0).
Proof.
  split; [by rewrite length_replicate|]. intros k Hk. rewrite aget_replicate.
  case_decide; [|done]. rewrite suffix_len_out; [done|lia].
Qed.

(** A complete row [i - 1] is what the sweep reads as [prev] in row [i]. *)
Lemma row_inv_read i row k :
  row_inv a b r i (bHi r) row → 0 <= k <= bHi r - bLo r →
  aget row k = L i (bLo r + k - 1).
Proof. intros [_ H] Hk. rewrite H by done. by rewrite decide_True by lia. Qed.

Lemma cell_step_inv prev i j curr best :
  aLo r <= i → bLo r <= j < bHi r →
  row_inv a b r (i - 1) (bHi r) prev →
  row_inv a b r i j curr → best_inv a b r i j best →
  row_inv a b r i (j + 1) (cell_step a b (bLo r) prev i j (curr, best)).1 ∧
  best_inv a b r i (j + 1) (cell_step a b (bLo r) prev i j (curr, best)).2.
Proof.
  intros Hi Hj Hprev [Hlen Hcurr] Hbest.
  destruct best as [[bs ae] be]. unfold cell_step.
  pose proof (suffix_len_step a b (aLo r) (bLo r) i j Hi (proj1 Hj)) as HL.
  pose proof (suffix_len_nonneg a b (aLo r) (bLo r) (i - 1) (j - 1)) as Hnn.
  destruct Hbest as (Hbs & Hzero & Hpos & Hall).
  assert (∀ i' j', seen r i (j + 1) i' j' → seen r i j i' j' ∨ (i' = i ∧ j' = j)) as Hseen.
  { unfold seen. intros; lia. }
  assert (∀ i' j', seen r i j i' j' → seen r i (j + 1) i' j') as Hseen'.
  { unfold seen. intros; lia. }
  destruct (tok_eq a b i j) eqn:Ht.
  - rewrite (row_inv_read (i - 1) prev (j - bLo r)) by (done || lia).
    replace (bLo r + (j - bLo r) - 1) with (j - 1) by lia.
    remember (L (i - 1) (j - 1) + 1) as val eqn:Hval.
    assert (L i j = val) as HLv by lia.
    assert (row_inv a b r i (j + 1) (aset curr (j - bLo r + 1) val)) as Hrow.
    { split; [by rewrite length_aset|]. intros k Hk.
      destruct (decide (k = j - bLo r + 1)) as [->|Hne].
      - rewrite aget_aset_eq by lia. rewrite decide_True by lia.
        rewrite <- HLv. f_equal. lia.
      - rewrite aget_aset_ne by done. rewrite Hcurr by done.
        repeat case_decide; (done || lia). }
    case_bool_decide as Hgt; simpl; (split; [done|]).
    + split_and!.
      * lia.
      * lia.
      * intros _. replace (i + 1 - 1) with i by lia.
        replace (j + 1 - 1) with j by lia. split; [unfold seen; lia|done].
      * intros i' j' Hs. destruct (Hseen _ _ Hs) as [Hs'| [-> ->]]; [|lia].
        destruct (Hall _ _ Hs'). lia.
    + split_and!.
      * lia.
      * done.
      * intros Hp. destruct (Hpos Hp). auto.
      * intros i' j' Hs. destruct (Hseen _ _ Hs) as [Hs'| [-> ->]]; [by apply Hall|].
        split; [lia|]. intros _ Hp. destruct (Hpos Hp) as [Hsn _].
        unfold seen in Hsn. lia.
  - simpl. split.
    + split; [done|]. intros k Hk. rewrite Hcurr by done.
      destruct (decide (k = j - bLo r + 1)) as [->|Hne].
      * rewrite decide_False, decide_True by lia.
        replace (bLo r + (j - bLo r + 1) - 1) with j by lia. lia.
      * repeat case_decide; (done || lia).
    + split_and!.
      * lia.
      * done.
      * intros Hp. destruct (Hpos Hp). auto.
      * intros i' j' Hs. destruct (Hseen _ _ Hs) as [Hs'| [-> ->]]; [by apply Hall|].
        lia.
Qed.

Lemma row_step_inv i prev best :
  aLo r <= i →
  row_inv a b r (i - 1) (bHi r) prev → best_inv a b r i (bLo r) best →
  row_inv a b r i (bHi r) (row_step a b (bLo r) (bHi r) i (prev, best)).1 ∧
  best_inv a b r (i + 1) (bLo r) (row_step a b (bLo r) (bHi r) i (prev, best)).2.
Proof.
  intros Hi Hprev Hbest. unfold row_step.
  set (curr0 := replicate _ 0).
  pose (I := λ (j : Z) (st : list Z * best_t),
    row_inv a b r i j st.1 ∧ best_inv a b r i j st.2).
  assert (I (bHi r) (for_range (bLo r) (bHi r) (cell_step a b (bLo r) prev i) (curr0, best)))
    as HI.
  { apply for_range_ind; [lia| |].
    - split; [apply row_inv_init|done].
    - intros j [curr best'] Hj [Hr Hbi]. by apply cell_step_inv. }
  destruct (for_range _ _ _ _) as [curr best']. destruct HI as [Hr Hbi]. simpl in *.
  rewrite copy_row_same_length by (destruct Hprev as [-> _]; by destruct Hr as [-> _]).
  split; [done|].
  destruct best' as [[bs ae] be]. destruct Hbi as (H1 & H2 & H3 & H4).
  assert (∀ i' j', seen r i (bHi r) i' j' ↔ seen r (i + 1) (bLo r) i' j') as Hs.
  { unfold seen. intros; lia. }
  split_and!; [done..| |].
  - intros Hp. destruct (H3 Hp). split; [by apply Hs|done].
  - intros i' j' Hs'. apply Hs in Hs'. by apply H4.
Qed.

Lemma sweep_inv hi :
  aLo r <= hi →
  best_inv a b r hi (bLo r)
    (for_range (aLo r) hi (row_step a b (bLo r) (bHi r))
       (replicate (Z.to_nat (bHi r - bLo r + 1)) 0, (0, aLo r, bLo r))).2.
Proof.
  intros Hhi.
  pose (I := λ (i : Z) (st : list Z * best_t),
    row_inv a b r (i - 1) (bHi r) st.1 ∧ best_inv a b r i (bLo r) st.2).
  apply (for_range_ind I); [done| |].
  - unfold I; simpl. split.
    + split; [by rewrite length_replicate|]. intros k Hk. rewrite aget_replicate.
      case_decide; [|done]. rewrite suffix_len_out; [done|lia].
    + split_and!; [lia..|]. unfold seen. lia.
  - intros i [prev best] Hi [Hr Hbi].
    destruct (row_step_inv i prev best) as [Hr' Hb']; [lia|done..|].
    split; [|done]. by replace (i + 1 - 1) with i by lia.
Qed.
End sweep.

(** ** findLongestCommonBlock returns the first longest common block *)

Lemma flcb_longest_first a b r :
  longest_first a b r (findLongestCommonBlock a b (aLo r) (aHi r) (bLo r) (bHi r)).
Proof.
  unfold findLongestCommonBlock.
  destruct (_ || _) eqn:E.
  { apply orb_true_iff in E as [E|E]; [apply orb_true_iff in E as [E|E]|];
      apply bool_decide_eq_true in E.
    all: split_and!; simpl; [lia|intros k; lia|lia|done|].
    all: unfold in_region; intros; lia. }
  apply orb_false_iff in E as [E E3]. apply orb_false_iff in E as [E1 E2].
  apply bool_decide_eq_false in E1, E2.
  pose proof (sweep_inv a b r ltac:(lia) (aHi r) ltac:(lia)) as Hinv.
  destruct (for_range _ _ _ _) as [prev [[bs ae] be]]. simpl in Hinv.
  destruct Hinv as (Hbs & Hzero & Hpos & Hall).
  split_and!; simpl.
  - done.
  - intros k Hk.
    destruct (Hpos ltac:(lia)) as [_ HL].
    destruct (suffix_len_sound a b (aLo r) (bLo r) (ae - 1) (be - 1) (bs - 1 - k))
      as (_ & _ & Heq); [lia|].
    replace (ae - bs + k) with (ae - 1 - (bs - 1 - k)) by lia.
    by replace (be - bs + k) with (be - 1 - (bs - 1 - k)) by lia.
  - intros Hp. destruct (Hpos Hp) as [Hs HL].
    destruct (suffix_len_sound a b (aLo r) (bLo r) (ae - 1) (be - 1) (bs - 1))
      as (? & ? & _); [lia|].
    unfold seen in Hs. unfold in_region. lia.
  - intros ->. destruct (Hzero eq_refl) as [-> ->]. lia.
  - intros x y s Hs (Hx1 & Hx2 & Hy1 & Hy2) Hc.
    assert (seen r (aHi r) (bLo r) (x + s - 1) (y + s - 1)) as Hseen
      by (unfold seen; lia).
    assert (s <= suffix_len a b (aLo r) (bLo r) (x + s - 1) (y + s - 1)) as Hle.
    { apply suffix_len_max. intros k Hk. split_and!; [lia..|].
      replace (x + s - 1 - k) with (x + (s - 1 - k)) by lia.
      replace (y + s - 1 - k) with (y + (s - 1 - k)) by lia.
      apply Hc. lia. }
    destruct (Hall _ _ Hseen) as [Hmax Hfirst].
    split; [lia|]. intros ->. lia.
Qed.

(** ** Sorting and pairwise relations *)

Section sort_by_facts.
Context {A : Type} (key : A → Z).

Lemma insert_by_perm x l : insert_by key x l ≡ₚ x :: l.
Proof.
  induction l as [|y l IH]; simpl; [done|].
  case_bool_decide; [done|]. rewrite IH. apply Permutation_swap.
Qed.

Lemma sort_by_perm l : sort_by key l ≡ₚ l.
Proof.
  induction l as [|x l IH]; simpl; [done|].
  rewrite insert_by_perm. by rewrite IH.
Qed.

Lemma insert_by_sorted x l :
  StronglySorted (λ u v, key u <= key v) l →
  StronglySorted (λ u v, key u <= key v) (insert_by key x l).
Proof.
  induction 1 as [|y l Hs IH Hy]; simpl.
  - repeat constructor.
  - case_bool_decide as Hxy.
    + constructor; [by constructor|]. constructor; [done|].
      eapply Forall_impl; [exact Hy|]. simpl. intros; lia.
    + constructor; [done|]. rewrite insert_by_perm.
      constructor; [lia|done].
Qed.

Lemma sort_by_sorted l : StronglySorted (λ u v, key u <= key v) (sort_by key l).
Proof.
  induction l as [|x l IH]; simpl; [constructor|]. by apply insert_by_sorted.
Qed.

(** A sorted array is left as it is. *)
Lemma sort_by_id l : StronglySorted (λ u v, key u <= key v) l → sort_by key l = l.
Proof.
  induction 1 as [|x l Hs IH Hx]; simpl; [done|]. fold (sort_by key l). rewrite IH.
  destruct Hx as [|y l Hxy _]; simpl; [done|]. by rewrite bool_decide_eq_true_2.
Qed.
End sort_by_facts.

Section pairwise_facts.
Context {A : Type} (R : A → A → Prop) `{!Symmetric R}.

Lemma pairwise_perm l l' : l ≡ₚ l' → pairwise R l → pairwise R l'.
Proof.
  induction 1 as [|x l l' Hp IH|x y l|l l' l'' _ IH1 _ IH2]; simpl.
  - done.
  - intros [Hx Hl]. split; [by rewrite <- Hp|auto].
  - intros [Hy [Hx Hl]]. apply Forall_cons in Hy as [Hyx Hy].
    split_and!; try done. constructor; [by symmetry|done].
  - auto.
Qed.

Lemma pairwise_lookup l (i j : nat) x y :
  pairwise R l → i ≠ j → l !! i = Some x → l !! j = Some y → R x y.
Proof.
  assert (∀ l (i j : nat) x y, pairwise R l → (i < j)%nat →
            l !! i = Some x → l !! j = Some y → R x y) as Hlt.
  { clear. intros l. induction l as [|z l IH]; intros i j x y Hp Hij Hi Hj; [done|].
    destruct Hp as [Hz Hp]. destruct j as [|j]; [lia|]. simpl in Hj.
    destruct i as [|i]; simpl in Hi.
    - simplify_eq. rewrite Forall_forall in Hz. apply Hz.
      by eapply list_elem_of_lookup_2.
    - apply (IH i j x y); [done|lia|done|done]. }
  intros Hp Hij Hi Hj. destruct (decide (i < j)%nat).
  - by apply (Hlt l i j).
  - symmetry. apply (Hlt l j i); [done|lia|done|done].
Qed.
End pairwise_facts.

(** ** Regions *)

Lemma ival_disjoint_iff lo1 hi1 lo2 hi2 :
  ival_disjoint lo1 hi1 lo2 hi2 ↔ hi1 <= lo1 ∨ hi2 <= lo2 ∨ hi1 <= lo2 ∨ hi2 <= lo1.
Proof.
  unfold ival_disjoint. split.
  - intros H. pose proof (H (Z.max lo1 lo2)). lia.
  - intros H x. lia.
Qed.

Global Instance apart_symmetric : Symmetric apart.
Proof.
  intros r1 r2 [Ha Hb]. unfold apart in *. rewrite !ival_disjoint_iff in *. lia.
Qed.

Lemma apart_sub_region r r1 x : sub_region r1 r → apart r x → apart r1 x.
Proof.
  intros (?&?&?&?) [Ha Hb]. split; intros z Hz; [apply (Ha z)|apply (Hb z)]; lia.
Qed.

(** ** The loop of findMatchingBlocks *)

Section fmb_facts.
Context (a b : list jsstring) (minMatchWords : Z).

Lemma fmb_step_inv st st' :
  1 <= minMatchWords → fmb_inv a b minMatchWords st →
  fmb_step a b minMatchWords st = Some st' → fmb_inv a b minMatchWords st'.
Proof.
  intros Hmin (Hpend & Hblocks & Hpw) Hstep.
  destruct st as [[|r rest] blocks]; simpl in *; [done|].
  pose proof (flcb_longest_first a b r) as (Hsz & Hcom & Hin & _ & _).
  set (best := findLongestCommonBlock _ _ _ _ _ _) in *.
  apply Forall_cons in Hpend as [Hr Hrest]. destruct Hpw as [Hrx Hpw].
  case_bool_decide as Hlt; simplify_eq; [done|].
  destruct (Hin ltac:(lia)) as (Hi1 & Hi2 & Hi3 & Hi4).
  destruct Hr as (Hr1 & Hr2 & Hr3 & Hr4).
  set (after := mkRegion _ _ _ _). set (before := mkRegion (aLo r) _ _ _).
  assert (sub_region after r) by (unfold sub_region, after; simpl; lia).
  assert (sub_region before r) by (unfold sub_region, before; simpl; lia).
  assert (sub_region (block_region best) r)
    by (unfold sub_region, block_region; simpl; lia).
  split_and!; simpl.
  - repeat constructor; simpl; (lia || done).
  - apply Forall_app. split; [done|]. constructor; [|done].
    split_and!; [lia| |done]. unfold in_bounds, block_region. simpl. lia.
  - change (pairwise apart
              (after :: before :: rest ++ (block_region <$> (blocks ++ [best])))).
    rewrite fmap_app. simpl fmap.
    apply (pairwise_perm apart
             (after :: before :: block_region best :: rest ++ (block_region <$> blocks))).
    { do 2 apply Permutation_skip. rewrite Permutation_cons_append.
      by rewrite <- (assoc_L app). }
    assert (∀ x, sub_region x r →
              Forall (apart x) (rest ++ (block_region <$> blocks))) as Hsub.
    { intros x Hx. eapply Forall_impl; [exact Hrx|]. intros y.
      by apply apart_sub_region. }
    assert (apart after before ∧ apart after (block_region best) ∧
            apart before (block_region best)) as (?&?&?).
    { unfold apart, after, before, block_region; simpl.
      rewrite !ival_disjoint_iff. lia. }
    simpl. split_and!; [| |by apply Hsub|done].
    + do 2 (constructor; [done|]). by apply Hsub.
    + constructor; [done|]. by apply Hsub.
Qed.

Lemma fmb_step_weight st st' :
  1 <= minMatchWords → fmb_step a b minMatchWords st = Some st' →
  (fmb_weight st'.1 < fmb_weight st.1)%nat.
Proof.
  intros Hmin Hstep. destruct st as [[|r rest] blocks]; simpl in *; [done|].
  pose proof (flcb_longest_first a b r) as (Hsz & _ & Hin & _ & _).
  set (best := findLongestCommonBlock _ _ _ _ _ _) in *.
  case_bool_decide as Hlt; simplify_eq; simpl; [lia|].
  destruct (Hin ltac:(lia)) as (Hi1 & Hi2 & Hi3 & Hi4). lia.
Qed.

(** The bound on the iterations is never the reason for the result. *)
Lemma fmb_loop_mono fuel fuel' st bs :
  fmb_loop fuel a b minMatchWords st = Some bs → (fuel <= fuel')%nat →
  fmb_loop fuel' a b minMatchWords st = Some bs.
Proof.
  revert fuel' st. induction fuel as [|fuel IH]; intros fuel' st Hrun Hle.
  - destruct fuel'; simpl in *; destruct (fmb_step _ _ _ st); done.
  - destruct fuel' as [|fuel']; [lia|]. simpl in *.
    destruct (fmb_step _ _ _ st); [|done]. apply IH; [done|lia].
Qed.

Lemma fmb_loop_terminates fuel st :
  1 <= minMatchWords → (fmb_weight st.1 <= fuel)%nat →
  is_Some (fmb_loop fuel a b minMatchWords st).
Proof.
  intros Hmin. revert st. induction fuel as [|fuel IH]; intros st Hw.
  - simpl. destruct (fmb_step _ _ _ st) as [st'|] eqn:E; [|done].
    apply fmb_step_weight in E; [lia|done].
  - simpl. destruct (fmb_step _ _ _ st) as [st'|] eqn:E; [|done].
    apply IH. apply fmb_step_weight in E; [lia|done].
Qed.

Lemma fmb_loop_inv fuel st bs :
  1 <= minMatchWords → fmb_inv a b minMatchWords st →
  fmb_loop fuel a b minMatchWords st = Some bs →
  fmb_inv a b minMatchWords ([], bs).
Proof.
  intros Hmin. revert st. induction fuel as [|fuel IH]; intros st Hinv Hrun; simpl in *.
  - destruct (fmb_step _ _ _ st) as [st'|] eqn:E; [done|]. simplify_eq.
    destruct st as [[|r rest] blocks]; [done|]. simpl in E. by case_bool_decide.
  - destruct (fmb_step _ _ _ st) as [st'|] eqn:E.
    + eapply IH; [|done]. by eapply fmb_step_inv.
    + simplify_eq. destruct st as [[|r rest] blocks]; [done|]. simpl in E.
      by case_bool_decide.
Qed.

Lemma fmb_init_inv : fmb_inv a b minMatchWords (fmb_init a b).
Proof.
  split_and!; simpl; [|done..]. repeat constructor; simpl; lia.
Qed.

(** With a threshold of at least one token the search ends, whatever the
    bound from [2 * |a| + 1] iterations on, and its blocks are valid,
    pairwise apart and sorted. *)
Lemma fmb_blocks :
  1 <= minMatchWords →
  ∃ bs,
    (∀ fuel, (2 * length a + 1 <= fuel)%nat →
       findMatchingBlocks fuel a b minMatchWords = Some bs) ∧
    Forall (valid_block a b minMatchWords) bs ∧
    pairwise apart (block_region <$> bs) ∧
    StronglySorted (λ x y, aStart x <= aStart y) bs.
Proof.
  intros Hmin.
  destruct (fmb_loop_terminates (2 * length a + 1) (fmb_init a b) Hmin) as [bs Hbs].
  { simpl. lia. }
  pose proof (fmb_loop_inv _ _ _ Hmin fmb_init_inv Hbs) as (_ & Hvalid & Hpw).
  simpl in *. exists (sort_by aStart bs). split_and!.
  - intros fuel Hfuel. unfold findMatchingBlocks.
    by rewrite (fmb_loop_mono _ fuel _ _ Hbs Hfuel).
  - by rewrite sort_by_perm.
  - eapply (pairwise_perm apart); [|exact Hpw].
    apply fmap_Permutation. by rewrite sort_by_perm.
  - apply sort_by_sorted.
Qed.

(** With a threshold of zero or less a region is never dropped: the
    popped region is replaced by two, so [pending] never empties. *)
Lemma fmb_loop_diverges fuel st :
  minMatchWords <= 0 → st.1 ≠ [] → fmb_loop fuel a b minMatchWords st = None.
Proof.
  intros Hmin. revert st. induction fuel as [|fuel IH]; intros st Hne.
  - destruct st as [[|r rest] blocks]; [done|]. simpl.
    pose proof (flcb_longest_first a b r) as (Hsz & _).
    by rewrite bool_decide_eq_false_2 by lia.
  - destruct st as [[|r rest] blocks]; [done|]. simpl.
    pose proof (flcb_longest_first a b r) as (Hsz & _).
    rewrite bool_decide_eq_false_2 by lia. by apply IH.
Qed.
End fmb_facts.

(** ** The store: what mergeRanges reads and writes *)

Lemma insert_by_fmap {A B} (f : A → B) (key : B → Z) (x : A) (l : list A) :
  f <$> insert_by (λ x, key (f x)) x l = insert_by key (f x) (f <$> l).
Proof.
  induction l as [|y l IH]; csimpl; [done|].
  case_bool_decide; csimpl; [done|]. by rewrite IH.
Qed.

Lemma sort_by_fmap {A B} (f : A → B) (key : B → Z) (l : list A) :
  f <$> sort_by (λ x, key (f x)) l = sort_by key (f <$> l).
Proof.
  induction l as [|x l IH]; [done|].
  change (f <$> insert_by (λ x, key (f x)) x (sort_by (λ x, key (f x)) l)
          = insert_by key (f x) (sort_by key (f <$> l))).
  rewrite <- IH. apply insert_by_fmap.
Qed.

Lemma foldl_merge_step rest h pre last :
  foldl merge_step (h, pre ++ [last]) rest
  = ((merge_from h last rest).1, pre ++ (merge_from h last rest).2).
Proof.
  revert h pre last. induction rest as [|c rest IH]; intros h pre last; simpl; [done|].
  rewrite last_snoc. simpl. case_bool_decide.
  - apply IH.
  - rewrite IH. destruct (merge_from (h ++ [h !!! c]) (length h) rest) as [h' out].
    simpl. by rewrite <- (assoc_L app).
Qed.

(** The loop writes to the object [last] and to objects it has created. *)
Lemma merge_from_frame rest h last :
  (last < length h)%nat →
  (length h <= length (merge_from h last rest).1)%nat ∧
  Forall (λ l, (l < length (merge_from h last rest).1)%nat) (merge_from h last rest).2 ∧
  ∀ l, (l < length h)%nat → l ≠ last → (merge_from h last rest).1 !!! l = h !!! l.
Proof.
  revert h last. induction rest as [|c rest IH]; intros h last Hlast; simpl.
  { split_and!; [done| |done]. by constructor. }
  case_bool_decide.
  - set (v := mkTextSpan _ _).
    destruct (IH (<[last := v]> h) last) as (IH1 & IH2 & IH3);
      [by rewrite length_insert|].
    rewrite length_insert in IH1, IH3. split_and!; [done..|].
    intros l Hl Hne. rewrite IH3 by done.
    by rewrite list_lookup_total_insert_ne.
  - destruct (IH (h ++ [h !!! c]) (length h)) as (IH1 & IH2 & IH3).
    { rewrite length_app. simpl. lia. }
    destruct (merge_from (h ++ [h !!! c]) (length h) rest) as [h' out]. simpl in *.
    rewrite length_app in *. simpl in *. split_and!; [lia| |].
    + constructor; [lia|done].
    + intros l Hl Hne. rewrite IH3 by lia. by rewrite lookup_total_app_l.
Qed.

Lemma values_insert_ne h refs l v :
  Forall (λ c, c ≠ l) refs → values (<[l := v]> h) refs = values h refs.
Proof.
  unfold values. induction 1 as [|c refs Hc _ IH]; csimpl; [done|].
  f_equal; [by rewrite list_lookup_total_insert_ne|done].
Qed.

Lemma values_app_l h h' refs :
  Forall (λ c, (c < length h)%nat) refs → values (h ++ h') refs = values h refs.
Proof.
  unfold values. induction 1 as [|c refs Hc _ IH]; csimpl; [done|].
  f_equal; [by rewrite lookup_total_app_l|done].
Qed.

(** When no span to come is the object [last], the loop is the fold of
    the specification on the values the store holds. *)
Lemma merge_from_private rest h last :
  (last < length h)%nat → Forall (λ c, (c < length h)%nat ∧ c ≠ last) rest →
  values (merge_from h last rest).1 (merge_from h last rest).2
  = merge_fold (h !!! last) (values h rest).
Proof.
  revert h last. induction rest as [|c rest IH]; intros h last Hlast Hrest; simpl; [done|].
  apply Forall_cons in Hrest as [[Hc Hne] Hrest].
  case_bool_decide.
  - set (v := mkTextSpan _ _). rewrite IH.
    + rewrite list_lookup_total_insert_eq by done. rewrite values_insert_ne; [done|].
      eapply Forall_impl; [exact Hrest|]. by intros ? [? ?].
    + by rewrite length_insert.
    + rewrite length_insert. done.
  - pose proof (IH (h ++ [h !!! c]) (length h)) as IH'.
    pose proof (merge_from_frame rest (h ++ [h !!! c]) (length h)) as Hfr.
    destruct (merge_from (h ++ [h !!! c]) (length h) rest) as [h' out]. simpl in *.
    rewrite length_app in *. simpl in *.
    destruct Hfr as (_ & _ & Hfr); [lia|].
    unfold values at 1. simpl. fold (values h' out).
    rewrite Hfr by lia. rewrite lookup_total_app_l by done. f_equal.
    rewrite IH'; [|lia|].
    + rewrite list_lookup_total_middle by done. rewrite values_app_l; [done|].
      eapply Forall_impl; [exact Hrest|]. by intros ? [? ?].
    + eapply Forall_impl; [exact Hrest|]. simpl. intros; lia.
Qed.

(** The first object of [sorted] may come again later in the array. The
    loop writes to it only while it is [last]; when [last] moves on, the
    object holds its first value or is not among the spans to come.
    [h0] is the store at the entry of the loop. *)
Lemma merge_from_alias rest h0 h last :
  length h = length h0 → (last < length h)%nat →
  (∀ l, l ≠ last → h !!! l = h0 !!! l) →
  start (h !!! last) = start (h0 !!! last) →
  end_ (h0 !!! last) <= end_ (h !!! last) →
  (h !!! last ≠ h0 !!! last → start (h !!! last) <= end_ (h !!! last)) →
  Forall (λ c, (c < length h)%nat) rest →
  StronglySorted (λ x y, start (h0 !!! x) <= start (h0 !!! y)) (last :: rest) →
  values (merge_from h last rest).1 (merge_from h last rest).2
  = merge_fold (h !!! last) (values h0 rest).
Proof.
  revert h. induction rest as [|c rest IH];
    intros h Hlen Hlast Hagree Hstart Hend Hmut Hrest Hsorted; simpl; [done|].
  apply Forall_cons in Hrest as [Hc Hrest].
  apply StronglySorted_inv in Hsorted as [Hsorted Hfirst].
  apply Forall_cons in Hfirst as [Hlc Hfirst].
  apply StronglySorted_inv in Hsorted as [Hsorted' Hcrest].
  assert (start (h !!! c) = start (h0 !!! c)) as Hsc.
  { destruct (decide (c = last)) as [->|]; [done|]. by rewrite (Hagree c). }
  assert (Z.max (end_ (h !!! last)) (end_ (h !!! c))
          = Z.max (end_ (h !!! last)) (end_ (h0 !!! c))) as Hmax.
  { destruct (decide (c = last)) as [->|]; [lia|]. by rewrite (Hagree c). }
  rewrite Hsc, Hmax. case_bool_decide as Hcond.
  - rewrite IH.
    + by rewrite list_lookup_total_insert_eq by done.
    + by rewrite length_insert.
    + by rewrite length_insert.
    + intros l Hl. rewrite list_lookup_total_insert_ne by done. by apply Hagree.
    + by rewrite list_lookup_total_insert_eq by done.
    + rewrite list_lookup_total_insert_eq by done. simpl. lia.
    + rewrite list_lookup_total_insert_eq by done. simpl. lia.
    + by rewrite length_insert.
    + by constructor.
  - assert (h !!! c = h0 !!! c) as Hcv.
    { destruct (decide (c = last)) as [->|]; [|by apply Hagree].
      destruct (decide (h !!! last = h0 !!! last)) as [|Hne]; [done|].
      specialize (Hmut Hne). lia. }
    assert (values h rest = values h0 rest) as Hvals.
    { unfold values. apply list_fmap_ext. intros i c' Hi.
      destruct (decide (c' = last)) as [->|]; [|by apply Hagree].
      destruct (decide (h !!! last = h0 !!! last)) as [|Hne]; [done|].
      specialize (Hmut Hne).
      rewrite Forall_forall in Hcrest.
      specialize (Hcrest last (list_elem_of_lookup_2 _ _ _ Hi)). simpl in Hcrest. lia. }
    pose proof (merge_from_private rest (h ++ [h !!! c]) (length h)) as Hpriv.
    pose proof (merge_from_frame rest (h ++ [h !!! c]) (length h)) as Hfr.
    destruct (merge_from (h ++ [h !!! c]) (length h) rest) as [h' out]. simpl in *.
    rewrite length_app in *. simpl in *.
    destruct Hfr as (_ & _ & Hfr); [lia|].
    unfold values at 1. csimpl. fold (values h' out).
    rewrite Hfr by lia. rewrite lookup_total_app_l by done. f_equal.
    rewrite Hpriv; [|lia|].
    + rewrite list_lookup_total_middle by done. rewrite values_app_l by done.
      by rewrite Hcv, Hvals.
    + eapply Forall_impl; [exact Hrest|]. simpl. intros; lia.
Qed.

(** mergeRanges returns the spans the fold of the specification gives for
    the values the input holds, whatever objects the input shares. *)
Lemma mergeRanges_values h ranges :
  Forall (λ l, (l < length h)%nat) ranges →
  values (mergeRanges h ranges).1 (mergeRanges h ranges).2 = merge_spec (values h ranges).
Proof.
  intros Hwf. unfold mergeRanges, merge_spec, values.
  rewrite <- (sort_by_fmap (h !!!.) start).
  destruct ranges as [|r ranges]; [done|].
  pose proof (sort_by_perm (λ l, start (h !!! l)) (r :: ranges)) as Hperm.
  pose proof (sort_by_sorted (λ l, start (h !!! l)) (r :: ranges)) as Hsorted.
  destruct (sort_by _ (r :: ranges)) as [|s0 rest]; [done|].
  rewrite <- Hperm in Hwf. apply Forall_cons in Hwf as [Hs0 Hrest].
  rewrite (foldl_merge_step rest h [] s0 : foldl merge_step (h, [s0]) rest = _). csimpl.
  by apply merge_from_alias.
Qed.

(** mergeRanges leaves every object alone but the first of [sorted], and
    its result refers to objects of the store it returns. *)
Lemma mergeRanges_frame h ranges :
  Forall (λ l, (l < length h)%nat) ranges →
  (length h <= length (mergeRanges h ranges).1)%nat ∧
  Forall (λ l, (l < length (mergeRanges h ranges).1)%nat) (mergeRanges h ranges).2 ∧
  ∀ l, (l < length h)%nat → head (sort_by (λ l, start (h !!! l)) ranges) ≠ Some l →
       (mergeRanges h ranges).1 !!! l = h !!! l.
Proof.
  intros Hwf. unfold mergeRanges.
  destruct ranges as [|r ranges]; [by split_and!|].
  pose proof (sort_by_perm (λ l, start (h !!! l)) (r :: ranges)) as Hperm.
  destruct (sort_by _ (r :: ranges)) as [|s0 rest]; [by split_and!|].
  rewrite <- Hperm in Hwf. apply Forall_cons in Hwf as [Hs0 Hrest].
  rewrite (foldl_merge_step rest h [] s0 : foldl merge_step (h, [s0]) rest = _). csimpl.
  destruct (merge_from_frame rest h s0 Hs0) as (H1 & H2 & H3).
  split_and!; [done..|]. intros l Hl Hne. apply H3; [done|]. naive_solver.
Qed.

(** ** The fold of the specification *)

Lemma merge_fold_head cur rest :
  ∃ e out, merge_fold cur rest = mkTextSpan (start cur) e :: out ∧ end_ cur <= e.
Proof.
  revert cur. induction rest as [|next rest IH]; intros cur; simpl.
  - exists (end_ cur), []. by destruct cur.
  - case_bool_decide.
    + destruct (IH (mkTextSpan (start cur) (Z.max (end_ cur) (end_ next))))
        as (e & out & -> & He). simpl in *. exists e, out. split; [done|lia].
    + exists (end_ cur), (merge_fold next rest). by destruct cur.
Qed.

Lemma merge_fold_lower lo cur rest :
  lo <= start cur → Forall (λ y, lo <= start y) rest →
  Forall (λ y, lo <= start y) (merge_fold cur rest).
Proof.
  revert cur. induction rest as [|next rest IH]; intros cur Hcur Hrest; simpl.
  - by constructor.
  - apply Forall_cons in Hrest as [Hnext Hrest]. case_bool_decide.
    + by apply IH.
    + constructor; [done|]. by apply IH.
Qed.

Lemma merge_fold_sorted cur rest :
  StronglySorted by_start (cur :: rest) →
  StronglySorted by_start (merge_fold cur rest) ∧ Sorted gap (merge_fold cur rest).
Proof.
  revert cur. induction rest as [|next rest IH]; intros cur Hs; simpl.
  - split; repeat constructor.
  - apply StronglySorted_inv in Hs as [Hs Hcur].
    apply Forall_cons in Hcur as [Hcn Hcur].
    pose proof Hs as Hs'. apply StronglySorted_inv in Hs' as [Hrest Hnext].
    case_bool_decide as Hcond.
    + apply IH. by constructor.
    + destruct (IH next Hs) as [IH1 IH2]. split.
      * constructor; [done|]. apply merge_fold_lower; [done|].
        eapply Forall_impl; [exact Hcur|]. done.
      * constructor; [done|].
        destruct (merge_fold_head next rest) as (e & out & -> & _).
        constructor. unfold gap. simpl. lia.
Qed.

Lemma merge_fold_well_formed cur rest :
  well_formed cur → Forall well_formed rest → Forall well_formed (merge_fold cur rest).
Proof.
  revert cur. induction rest as [|next rest IH]; intros cur Hcur Hrest; simpl.
  - by constructor.
  - apply Forall_cons in Hrest as [Hnext Hrest]. case_bool_decide.
    + apply IH; [|done]. unfold well_formed in *. simpl. lia.
    + constructor; [done|]. by apply IH.
Qed.

(** Spans with a gap between each and the next are left as they are. *)
Lemma merge_fold_id cur rest : Sorted gap (cur :: rest) → merge_fold cur rest = cur :: rest.
Proof.
  revert cur. induction rest as [|next rest IH]; intros cur Hs; simpl; [done|].
  apply Sorted_inv in Hs as [Hs Hhd]. apply HdRel_inv in Hhd.
  rewrite bool_decide_eq_false_2 by (unfold gap in Hhd; lia).
  by rewrite IH.
Qed.

Lemma merge_spec_sorted ranges :
  StronglySorted by_start (merge_spec ranges) ∧ Sorted gap (merge_spec ranges).
Proof.
  unfold merge_spec. pose proof (sort_by_sorted start ranges) as Hs.
  destruct (sort_by start ranges) as [|s0 rest]; [split; constructor|].
  by apply merge_fold_sorted.
Qed.

Lemma merge_spec_well_formed ranges :
  Forall well_formed ranges → Forall well_formed (merge_spec ranges).
Proof.
  intros Hwf. unfold merge_spec. rewrite <- (sort_by_perm start ranges) in Hwf.
  destruct (sort_by start ranges) as [|s0 rest]; [done|].
  apply Forall_cons in Hwf as [? ?]. by apply merge_fold_well_formed.
Qed.

Lemma merge_spec_id ranges :
  StronglySorted by_start ranges → Sorted gap ranges → merge_spec ranges = ranges.
Proof.
  intros Hs Hg. unfold merge_spec. rewrite (sort_by_id start ranges Hs).
  destruct ranges as [|s0 rest]; [done|]. by apply merge_fold_id.
Qed.

Lemma merge_spec_idempotent ranges : merge_spec (merge_spec ranges) = merge_spec ranges.
Proof. destruct (merge_spec_sorted ranges). by apply merge_spec_id. Qed.

(** With well-formed spans a gap between neighbours is a gap between any
    two spans of the list. *)
Lemma gap_strongly l : Sorted gap l → Forall well_formed l → StronglySorted gap l.
Proof.
  induction 1 as [|x l Hs IH Hhd]; intros Hwf; [constructor|].
  apply Forall_cons in Hwf as [Hx Hwf]. specialize (IH Hwf).
  constructor; [done|]. destruct Hhd as [|y l Hxy]; [constructor|].
  apply StronglySorted_inv in IH as [_ Hy]. apply Forall_cons in Hwf as [Hy' _].
  constructor; [done|]. eapply Forall_impl; [exact Hy|].
  unfold gap, well_formed in *. simpl. intros; lia.
Qed.

(** ** The highlight renderer *)

Lemma slice_in_range text f t :
  0 <= f <= t → t <= Z.of_nat (length text) →
  slice text f t = take (Z.to_nat (t - f)) (drop (Z.to_nat f) text).
Proof.
  intros Hf Ht. unfold slice.
  rewrite !bool_decide_eq_false_2 by lia. by rewrite !Z.min_l by lia.
Qed.

(** Each iteration extends the text rendered so far from the first
    [cursor] units of [text] to its first [end_ range] units. *)
Lemma highlight_step_text text nodes cursor idx range :
  0 <= cursor <= start range → start range <= end_ range →
  end_ range <= Z.of_nat (length text) →
  concat (node_text <$> nodes) = take (Z.to_nat cursor) text →
  concat (node_text <$> (highlight_step text (nodes, cursor) idx range).1)
  = take (Z.to_nat (end_ range)) text.
Proof.
  intros Hc Hr Hlen Hnodes. unfold highlight_step. simpl.
  assert (take (Z.to_nat cursor) text
          ++ slice text cursor (start range) ++ slice text (start range) (end_ range)
          = take (Z.to_nat (end_ range)) text) as Hcat.
  { rewrite !slice_in_range by lia. rewrite (assoc_L app), take_take_drop.
    replace (Z.to_nat cursor + Z.to_nat (start range - cursor))%nat
      with (Z.to_nat (start range)) by lia.
    rewrite take_take_drop. f_equal. lia. }
  case_bool_decide as Hgap.
  - rewrite !fmap_app, !concat_app. simpl. rewrite !app_nil_r, Hnodes.
    by rewrite <- (assoc_L app).
  - rewrite fmap_app, concat_app. simpl. rewrite app_nil_r, Hnodes.
    rewrite <- Hcat.
    assert (slice text cursor (start range) = []) as ->; [|done].
    rewrite slice_in_range by lia.
    by replace (Z.to_nat (start range - cursor)) with 0%nat by lia.
Qed.

Lemma highlight_loop_text text ranges idx nodes cursor :
  0 <= cursor <= Z.of_nat (length text) →
  Forall (λ r, 0 <= start r ∧ start r <= end_ r ∧ end_ r <= Z.of_nat (length text)) ranges →
  Sorted (λ x y, end_ x <= start y) ranges →
  Forall (λ r, cursor <= start r) (take 1 ranges) →
  concat (node_text <$> nodes) = take (Z.to_nat cursor) text →
  let st := highlight_loop text idx ranges (nodes, cursor) in
  0 <= st.2 <= Z.of_nat (length text) ∧
  concat (node_text <$> st.1) = take (Z.to_nat st.2) text.
Proof.
  revert idx nodes cursor.
  induction ranges as [|r ranges IH]; intros idx nodes cursor Hc Hin Hs Hfirst Hnodes;
    cbn [highlight_loop]; [done|].
  apply Forall_cons in Hin as [(Hr1 & Hr2 & Hr3) Hin].
  apply Sorted_inv in Hs as [Hs Hhd].
  apply Forall_cons in Hfirst as [Hcr _].
  pose proof (highlight_step_text text nodes cursor idx r
                ltac:(lia) ltac:(lia) ltac:(lia) Hnodes) as Hstep.
  destruct (highlight_step text (nodes, cursor) idx r) as [nodes' cursor'] eqn:E.
  assert (cursor' = end_ r) as -> by (unfold highlight_step in E; by simplify_eq).
  apply IH; [lia|done|done| |exact Hstep].
  destruct Hhd as [|y l Hy]; simpl; [done|]. rewrite take_0. by repeat constructor.
Qed.

(** ** The tokenizer *)

Lemma tokenize_from_ordered text pos run :
  Forall (λ t, pos - Z.of_nat (length run) <= tok_start t ∧ tok_start t <= tok_end t)
    (tokenize_from pos run text) ∧
  StronglySorted (λ x y, tok_end x <= tok_start y) (tokenize_from pos run text).
Proof.
  revert pos run. induction text as [|c text IH]; intros pos run; simpl.
  - destruct run; simpl; split; repeat constructor; simpl; lia.
  - destruct (is_word_unit c).
    + destruct (IH (pos + 1) (run ++ [c])) as [IH1 IH2]. split; [|done].
      eapply Forall_impl; [exact IH1|]. simpl. intros t. rewrite length_app. simpl. lia.
    + destruct (IH (pos + 1) []) as [IH1 IH2]. simpl in IH1.
      assert (Forall (λ t, pos - Z.of_nat (length run) <= tok_start t
                           ∧ tok_start t <= tok_end t)
                (tokenize_from (pos + 1) [] text)) as IH1'.
      { eapply Forall_impl; [exact IH1|]. simpl. intros; lia. }
      destruct run as [|u run]; simpl; [done|]. split.
      * constructor; [simpl; lia|done].
      * constructor; [done|]. eapply Forall_impl; [exact IH1|]. simpl. intros; lia.
Qed.

Lemma tokenizeWithSpans_ordered text : tokens_ordered (tokenizeWithSpans text).
Proof.
  destruct (tokenize_from_ordered text 0 []) as [H1 H2]. split; [|done].
  eapply Forall_impl; [exact H1|]. by intros t [_ ?].
Qed.

Lemma tokens_ordered_lookup spans (i j : nat) x y :
  tokens_ordered spans → (i <= j)%nat →
  spans !! i = Some x → spans !! j = Some y → tok_start x <= tok_end y.
Proof.
  intros [Hwf Hs]. revert i j. induction Hs as [|z l Hs IH Hz]; intros i j Hij Hi Hj; [done|].
  apply Forall_cons in Hwf as [Hzwf Hwf].
  destruct i as [|i], j as [|j]; simpl in *; simplify_eq.
  - done.
  - rewrite Forall_forall in Hz, Hwf.
    pose proof (Hz y (list_elem_of_lookup_2 _ _ _ Hj)).
    pose proof (Hwf y (list_elem_of_lookup_2 _ _ _ Hj)). simpl in *. lia.
  - lia.
  - apply (IH Hwf i j); [lia|done..].
Qed.

(** ** The span mapper *)

(** For a block that is not empty the guard is exact: the block is
    skipped when it leaves the tokens, and mapped to the span from its
    first token to its last one otherwise. *)
Lemma block_range_within spans sd block :
  block_within sd (length spans) block →
  ∃ first last,
    zlookup spans (side_start sd block) = Some first ∧
    zlookup spans (side_start sd block + size block - 1) = Some last ∧
    block_range spans sd block = Emit (mkTextSpan (tok_start first) (tok_end last)).
Proof.
  intros (Hsz & Hlo & Hhi). unfold block_range, zlookup.
  rewrite !bool_decide_eq_false_2 by lia. rewrite !decide_True by lia. simpl.
  destruct (lookup_lt_is_Some_2 spans (Z.to_nat (side_start sd block))) as [first Hf]; [lia|].
  destruct (lookup_lt_is_Some_2 spans (Z.to_nat (side_start sd block + size block - 1)))
    as [last Hl]; [lia|].
  rewrite Hf, Hl. by exists first, last.
Qed.

Lemma block_range_outside spans sd block :
  1 <= size block → ¬ block_within sd (length spans) block →
  block_range spans sd block = Skip.
Proof.
  intros Hsz Hout. unfold block_range, block_within in *.
  destruct (decide (side_start sd block < 0)).
  - by rewrite bool_decide_eq_true_2.
  - rewrite (bool_decide_eq_true_2 (_ >= _)) by lia. by rewrite orb_true_r.
Qed.

Lemma block_range_well_formed spans sd block s :
  tokens_ordered spans → 1 <= size block →
  block_range spans sd block = Emit s → well_formed s.
Proof.
  intros Hord Hsz. unfold block_range, zlookup.
  destruct (_ || _) eqn:E; [done|].
  apply orb_false_iff in E as [E1 E2]. apply bool_decide_eq_false in E1, E2.
  rewrite !decide_True by lia.
  destruct (spans !! _) as [first|] eqn:Hf; [|done].
  destruct (spans !! Z.to_nat (_ + _ - 1)) as [last|] eqn:Hl; [|done].
  intros [= <-]. unfold well_formed. simpl.
  eapply (tokens_ordered_lookup spans); [done| |exact Hf|exact Hl]. lia.
Qed.

Lemma values_fresh h vs :
  values (h ++ vs) (seq (length h) (length vs)) = vs.
Proof.
  unfold values. apply list_eq. intros i.
  rewrite list_lookup_fmap. destruct (decide (i < length vs)%nat) as [Hi|Hi].
  - rewrite lookup_seq_lt by done. simpl.
    destruct (lookup_lt_is_Some_2 vs i Hi) as [v Hv]. rewrite Hv. f_equal.
    apply list_lookup_total_correct. rewrite lookup_app_r by lia.
    by replace (length h + i - length h)%nat with i by lia.
  - rewrite lookup_seq_ge by lia. simpl. symmetry. apply lookup_ge_None. lia.
Qed.

(** The loop creates one object for each block, in the order of the
    blocks, when the blocks are not empty and lie within the tokens. *)
Lemma collect_ranges_within spans sd blocks h refs :
  Forall (block_within sd (length spans)) blocks →
  ∃ vs,
    collect_ranges spans sd blocks (h, refs)
    = Some (h ++ vs, refs ++ seq (length h) (length vs)) ∧
    length vs = length blocks ∧
    (tokens_ordered spans → Forall well_formed vs).
Proof.
  intros Hin. revert h refs.
  induction Hin as [|block blocks Hb _ IH]; intros h refs; simpl.
  - exists []. by rewrite !app_nil_r.
  - destruct (block_range_within spans sd block Hb) as (first & last & _ & _ & Hemit).
    rewrite Hemit. simpl.
    destruct (IH (h ++ [mkTextSpan (tok_start first) (tok_end last)])
                 (refs ++ [length h])) as (vs & -> & Hlen & Hwf).
    exists (mkTextSpan (tok_start first) (tok_end last) :: vs). split_and!.
    + rewrite <- !(assoc_L app). simpl. rewrite length_app. simpl.
      by replace (length h + 1)%nat with (S (length h)) by lia.
    + simpl. by rewrite Hlen.
    + intros Hord. constructor; [|by apply Hwf].
      eapply block_range_well_formed; [done| |exact Hemit]. by destruct Hb.
Qed.

(** On such blocks the span mapper does not throw. It leaves the objects
    of the store alone, and the spans it returns are sorted, with a gap
    between each and the next. *)
Lemma blocksToCharRanges_within h blocks spans sd :
  Forall (block_within sd (length spans)) blocks →
  ∃ h' out,
    blocksToCharRanges h blocks spans sd = Some (h', out) ∧
    (length h <= length h')%nat ∧
    Forall (λ l, (l < length h')%nat) out ∧
    (∀ l, (l < length h)%nat → h' !!! l = h !!! l) ∧
    StronglySorted by_start (values h' out) ∧
    Sorted gap (values h' out) ∧
    (tokens_ordered spans → StronglySorted gap (values h' out)).
Proof.
  intros Hin. unfold blocksToCharRanges.
  destruct (collect_ranges_within spans sd blocks h [] Hin) as (vs & -> & _ & Hwf).
  simpl. set (refs := seq (length h) (length vs)).
  assert (Forall (λ l, (l < length (h ++ vs))%nat) refs) as Hrefs.
  { apply Forall_forall. intros l Hl. apply elem_of_seq in Hl.
    rewrite length_app. lia. }
  pose proof (mergeRanges_values (h ++ vs) refs Hrefs) as Hvals.
  destruct (mergeRanges_frame (h ++ vs) refs Hrefs) as (Hlen & Hout & Hframe).
  destruct (mergeRanges (h ++ vs) refs) as [h' out] eqn:E. simpl in *.
  exists h', out. rewrite Hvals. unfold refs at 1 2 3. rewrite values_fresh.
  destruct (merge_spec_sorted vs) as [Hs Hg].
  split_and!; [done| |done| |done|done|].
  - rewrite length_app in Hlen. lia.
  - intros l Hl. rewrite Hframe.
    + by rewrite lookup_total_app_l.
    + rewrite length_app. lia.
    + intros Hhd. apply head_Some_elem_of in Hhd.
      rewrite sort_by_perm in Hhd. apply elem_of_seq in Hhd. lia.
  - intros Hord. apply gap_strongly; [done|].
    apply merge_spec_well_formed. by apply Hwf.
Qed.

(** ** The overlap computation *)

Lemma findMatchingBlocks_mono fuel fuel' a b minMatchWords blocks :
  findMatchingBlocks fuel a b minMatchWords = Some blocks → (fuel <= fuel')%nat →
  findMatchingBlocks fuel' a b minMatchWords = Some blocks.
Proof.
  unfold findMatchingBlocks. intros Hrun Hle.
  destruct (fmb_loop fuel _ _ _ _) as [bs|] eqn:E; [|done].
  by rewrite (fmb_loop_mono _ _ _ _ _ _ _ E Hle).
Qed.

Lemma valid_block_within a b minMatchWords m :
  1 <= minMatchWords → valid_block a b minMatchWords m →
  block_within SideA (length a) m ∧ block_within SideB (length b) m.
Proof.
  intros Hmin (Hsz & (H1 & H2 & H3 & H4) & _). unfold block_within. simpl in *. lia.
Qed.

Lemma values_ext h h' refs :
  Forall (λ l, h' !!! l = h !!! l) refs → values h' refs = values h refs.
Proof.
  unfold values. induction 1 as [|l refs Hl _ IH]; csimpl; [done|]. by f_equal.
Qed.

(** The computation of the panel ends, without an exception, and both
    arrays of ranges are sorted, with a gap between any two spans. *)
Lemma overlapRanges_sorted h human ai :
  ∃ h' hr ar,
    (∀ fuel, (2 * length (tokenizeWithSpans human) + 1 <= fuel)%nat →
       overlapRanges fuel h human ai = Some (h', (hr, ar))) ∧
    StronglySorted by_start (values h' hr) ∧ StronglySorted gap (values h' hr) ∧
    StronglySorted by_start (values h' ar) ∧ StronglySorted gap (values h' ar).
Proof.
  set (hs := tokenizeWithSpans human). set (ais := tokenizeWithSpans ai).
  destruct (fmb_blocks (token <$> hs) (token <$> ais) 3 ltac:(lia))
    as (bs & Hrun & Hvalid & _ & _).
  assert (Forall (block_within SideA (length hs)) bs
          ∧ Forall (block_within SideB (length ais)) bs) as [HA HB].
  { split; (eapply Forall_impl; [exact Hvalid|]); intros m Hm;
      apply valid_block_within in Hm; try lia; rewrite !length_fmap in Hm; tauto. }
  destruct (blocksToCharRanges_within h bs hs SideA HA)
    as (h1 & hr & E1 & Hlen1 & Hhr & _ & Hs1 & _ & Hg1).
  destruct (blocksToCharRanges_within h1 bs ais SideB HB)
    as (h2 & ar & E2 & Hlen2 & Har & Hframe & Hs2 & _ & Hg2).
  assert (values h2 hr = values h1 hr) as Hsame.
  { apply values_ext. eapply Forall_impl; [exact Hhr|]. intros l Hl. by apply Hframe. }
  exists h2, hr, ar. split_and!.
  - intros fuel Hfuel. unfold overlapRanges. fold hs ais.
    rewrite Hrun by (rewrite length_fmap; exact Hfuel). simpl.
    rewrite E1. simpl. by rewrite E2.
  - by rewrite Hsame.
  - rewrite Hsame. apply Hg1, tokenizeWithSpans_ordered.
  - done.
  - apply Hg2, tokenizeWithSpans_ordered.
Qed.

(** * The properties of the specification *)

(** ** Block matcher *)

(** C1. With a threshold of at least one token, findMatchingBlocks
    returns, and every block it returns has at least [minMatchWords]
    tokens, which are tokens of [a] and of [b] and equal one by one:
    [a[aStart + i] = b[bStart + i]] for [0 <= i < size]; the blocks come
    sorted by ascending [aStart]. *)
Theorem findMatchingBlocks_blocks_match a b minMatchWords :
  1 <= minMatchWords →
  ∃ blocks,
    (∀ fuel, (2 * length a + 1 <= fuel)%nat →
       findMatchingBlocks fuel a b minMatchWords = Some blocks) ∧
    Forall (λ m,
      minMatchWords <= size m ∧
      ∀ i, 0 <= i < size m →
        ∃ t, zlookup a (aStart m + i) = Some t ∧ zlookup b (bStart m + i) = Some t)
      blocks ∧
    StronglySorted (λ x y, aStart x <= aStart y) blocks.
Proof.
  intros Hmin. destruct (fmb_blocks a b minMatchWords Hmin) as (bs & Hrun & Hvalid & _ & Hs).
  exists bs. split_and!; [done| |done].
  eapply Forall_impl; [exact Hvalid|]. intros m (Hsz & (H1 & H2 & _ & _) & Hcom).
  simpl in *. split; [done|]. intros i Hi.
  destruct (lookup_lt_is_Some_2 a (Z.to_nat (aStart m + i))) as [t Ht]; [lia|].
  exists t. rewrite <- (Hcom i Hi). unfold zlookup. by rewrite decide_True by lia.
Qed.

(** The theorem on the sample arrays, with the threshold 3. *)
Lemma findMatchingBlocks_blocks_match_witness :
  1 <= 3 ∧
  ∃ blocks,
    (∀ fuel, (2 * length sample_a + 1 <= fuel)%nat →
       findMatchingBlocks fuel sample_a sample_b 3 = Some blocks) ∧
    Forall (λ m,
      3 <= size m ∧
      ∀ i, 0 <= i < size m →
        ∃ t, zlookup sample_a (aStart m + i) = Some t
             ∧ zlookup sample_b (bStart m + i) = Some t)
      blocks ∧
    StronglySorted (λ x y, aStart x <= aStart y) blocks.
Proof.
  split; [lia|]. apply (findMatchingBlocks_blocks_match sample_a sample_b 3). lia.
Defined.

(** C2. With a threshold of at least one token, two blocks at different
    positions of the array findMatchingBlocks returns share no token
    index: their ranges [[aStart, aStart + size)] are disjoint, and so
    are their ranges [[bStart, bStart + size)]. *)
Theorem findMatchingBlocks_blocks_disjoint a b minMatchWords :
  1 <= minMatchWords →
  ∃ blocks,
    (∀ fuel, (2 * length a + 1 <= fuel)%nat →
       findMatchingBlocks fuel a b minMatchWords = Some blocks) ∧
    ∀ (i j : nat) x y, i ≠ j → blocks !! i = Some x → blocks !! j = Some y →
      ival_disjoint (aStart x) (aStart x + size x) (aStart y) (aStart y + size y) ∧
      ival_disjoint (bStart x) (bStart x + size x) (bStart y) (bStart y + size y).
Proof.
  intros Hmin. destruct (fmb_blocks a b minMatchWords Hmin) as (bs & Hrun & _ & Hpw & _).
  exists bs. split; [done|]. intros i j x y Hij Hi Hj.
  apply (pairwise_lookup apart (block_region <$> bs) i j (block_region x) (block_region y));
    [done|done| |]; rewrite list_lookup_fmap; [by rewrite Hi|by rewrite Hj].
Qed.

(** The theorem on the sample arrays, with the threshold 3. *)
Lemma findMatchingBlocks_blocks_disjoint_witness :
  1 <= 3 ∧
  ∃ blocks,
    (∀ fuel, (2 * length sample_a + 1 <= fuel)%nat →
       findMatchingBlocks fuel sample_a sample_b 3 = Some blocks) ∧
    ∀ (i j : nat) x y, i ≠ j → blocks !! i = Some x → blocks !! j = Some y →
      ival_disjoint (aStart x) (aStart x + size x) (aStart y) (aStart y + size y) ∧
      ival_disjoint (bStart x) (bStart x + size x) (bStart y) (bStart y + size y).
Proof.
  split; [lia|]. apply (findMatchingBlocks_blocks_disjoint sample_a sample_b 3). lia.
Defined.

(** C4. In every region findLongestCommonBlock returns a common block of
    the region that no common block of the region exceeds in size, and
    among the common blocks of that size the one whose end comes first in
    the sweep: lowest [i], then lowest [j]. Token equality is that of
    [a[i] === b[j]]. In an empty region the result is the empty block at
    [(aLo, bLo)]. *)
Theorem findLongestCommonBlock_first_longest a b lo_a hi_a lo_b hi_b :
  let r := mkRegion lo_a hi_a lo_b hi_b in
  let m := findLongestCommonBlock a b lo_a hi_a lo_b hi_b in
  0 <= size m ∧
  common_block a b (aStart m) (bStart m) (size m) ∧
  (0 < size m → in_region r (aStart m) (bStart m) (size m)) ∧
  (size m = 0 → aStart m = lo_a ∧ bStart m = lo_b) ∧
  ∀ x y s, 0 < s → in_region r x y s → common_block a b x y s →
    s <= size m ∧
    (s = size m →
       aStart m + size m < x + s ∨
       (aStart m + size m = x + s ∧ bStart m + size m <= y + s)).
Proof. exact (flcb_longest_first a b (mkRegion lo_a hi_a lo_b hi_b)). Qed.

(** On the sample arrays the block of 3 tokens at [(5, 4)] bounds the
    size of the result from below; the result is the block at [(1, 0)]. *)
Lemma findLongestCommonBlock_first_longest_witness :
  findLongestCommonBlock sample_a sample_b 0 8 0 7 = mkMatchBlock 1 0 3 ∧
  3 <= size (findLongestCommonBlock sample_a sample_b 0 8 0 7).
Proof.
  split; [reflexivity|].
  destruct (findLongestCommonBlock_first_longest sample_a sample_b 0 8 0 7)
    as (_ & _ & _ & _ & H).
  apply (H 5 4 3); [lia|unfold in_region; simpl; lia|].
  intros k Hk.
  assert (k = 0 ∨ k = 1 ∨ k = 2) as [->|[->| ->]] by lia; reflexivity.
Defined.

(** C5. With a threshold of at least one token the loop of
    findMatchingBlocks ends: [pending] is empty after at most
    [2 * |a| + 1] iterations, whatever the bound on the iterations from
    there on. *)
Theorem findMatchingBlocks_terminates a b minMatchWords :
  1 <= minMatchWords →
  ∃ blocks,
    ∀ fuel, (2 * length a + 1 <= fuel)%nat →
      fmb_loop fuel a b minMatchWords (fmb_init a b) = Some blocks ∧
      findMatchingBlocks fuel a b minMatchWords = Some (sort_by aStart blocks).
Proof.
  intros Hmin.
  destruct (fmb_loop_terminates a b minMatchWords (2 * length a + 1) (fmb_init a b) Hmin)
    as [bs Hbs]; [simpl; lia|].
  exists bs. intros fuel Hfuel.
  pose proof (fmb_loop_mono a b minMatchWords _ fuel _ _ Hbs Hfuel) as Hrun.
  split; [done|]. unfold findMatchingBlocks. by rewrite Hrun.
Qed.

(** The theorem on the sample arrays, with the threshold 3. *)
Lemma findMatchingBlocks_terminates_witness :
  1 <= 3 ∧
  ∃ blocks,
    ∀ fuel, (2 * length sample_a + 1 <= fuel)%nat →
      fmb_loop fuel sample_a sample_b 3 (fmb_init sample_a sample_b) = Some blocks ∧
      findMatchingBlocks fuel sample_a sample_b 3 = Some (sort_by aStart blocks).
Proof.
  split; [lia|]. apply (findMatchingBlocks_terminates sample_a sample_b 3). lia.
Defined.

(** C6, as the code has it. findMatchingBlocks does not look at the sign
    of [minMatchWords]. With a threshold of at least one token it returns
    and every block it returns has at least [minMatchWords] tokens; and
    for no threshold at all does it return a block of size 0. *)
Theorem findMatchingBlocks_no_empty_block a b minMatchWords :
  (1 <= minMatchWords →
   ∃ blocks,
     (∀ fuel, (2 * length a + 1 <= fuel)%nat →
        findMatchingBlocks fuel a b minMatchWords = Some blocks) ∧
     Forall (λ m, minMatchWords <= size m) blocks) ∧
  (∀ fuel blocks,
     findMatchingBlocks fuel a b minMatchWords = Some blocks →
     Forall (λ m, size m ≠ 0) blocks).
Proof.
  split.
  - intros Hmin.
    destruct (fmb_blocks a b minMatchWords Hmin) as (bs & Hrun & Hvalid & _).
    exists bs. split; [done|]. eapply Forall_impl; [exact Hvalid|]. by intros m [? _].
  - intros fuel blocks Hrun. destruct (decide (1 <= minMatchWords)) as [Hmin|Hmin].
    + destruct (fmb_blocks a b minMatchWords Hmin) as (bs & Hbs & Hvalid & _).
      pose proof (findMatchingBlocks_mono fuel (fuel `max` (2 * length a + 1)) _ _ _ _
                    Hrun ltac:(lia)) as Hrun'.
      rewrite Hbs in Hrun' by lia. simplify_eq.
      eapply Forall_impl; [exact Hvalid|]. intros m [? _]. lia.
    + unfold findMatchingBlocks in Hrun.
      by rewrite (fmb_loop_diverges a b minMatchWords fuel (fmb_init a b)) in Hrun by (done || lia).
Qed.

(** The theorem on the sample arrays, with the threshold 3 and the
    result of 17 iterations at most. *)
Lemma findMatchingBlocks_no_empty_block_witness :
  1 <= 3 ∧
  (∃ blocks,
     (∀ fuel, (2 * length sample_a + 1 <= fuel)%nat →
        findMatchingBlocks fuel sample_a sample_b 3 = Some blocks) ∧
     Forall (λ m, 3 <= size m) blocks) ∧
  findMatchingBlocks 17 sample_a sample_b 3
    = Some [mkMatchBlock 1 0 3; mkMatchBlock 5 4 3] ∧
  Forall (λ m, size m ≠ 0) [mkMatchBlock 1 0 3; mkMatchBlock 5 4 3].
Proof.
  split; [lia|].
  destruct (findMatchingBlocks_no_empty_block sample_a sample_b 3) as [H1 H2].
  split; [apply H1; lia|]. split; [reflexivity|].
  apply (H2 17%nat). reflexivity.
Defined.

(** C6, as the specification states it, fails for the threshold 0 on two
    empty token arrays. The threshold is not clamped: with the threshold
    1 the call returns no block, with the threshold 0 it returns nothing,
    whatever the bound on the iterations. The call is not rejected
    either: the first iteration runs and records the block of size 0. *)
Lemma findMatchingBlocks_zero_threshold :
  findMatchingBlocks 1 [] [] (Z.max 1 0) = Some [] ∧
  (∀ fuel, findMatchingBlocks fuel [] [] 0 = None) ∧
  fmb_step [] [] 0 (fmb_init [] [])
  = Some ([mkRegion 0 0 0 0; mkRegion 0 0 0 0], [mkMatchBlock 0 0 0]).
Proof.
  split; [reflexivity|]. split; [|reflexivity].
  intros fuel. unfold findMatchingBlocks.
  by rewrite (fmb_loop_diverges [] [] 0 fuel (fmb_init [] [])).
Qed.

(** ** Range merger *)

(** C3. mergeRanges returns the spans of the fold of the specification
    on the spans of its input, sorted by [start]: a next span that starts
    at or before the end of the current one extends it to the larger of
    the two ends, a span that starts after it opens a new one. The spans
    returned are sorted by [start], each ends before the next one starts,
    and for an input of spans with [start <= end] each ends before every
    later one starts. The empty array gives the empty array. So the
    [human] and [ai] ranges of the overlap computation, which always
    ends, are sorted by [start] with a gap between any two of them. *)
Theorem mergeRanges_sorted_gaps :
  (∀ (h : list TextSpan) (ranges : list nat),
     Forall (λ l, (l < length h)%nat) ranges →
     Forall well_formed (values h ranges) →
     let out := values (mergeRanges h ranges).1 (mergeRanges h ranges).2 in
     out = merge_spec (values h ranges) ∧
     StronglySorted by_start out ∧ Sorted gap out ∧ StronglySorted gap out) ∧
  (∀ current next rest,
     merge_fold current (next :: rest)
     = if bool_decide (start next <= end_ current)
       then merge_fold (mkTextSpan (start current) (Z.max (end_ current) (end_ next))) rest
       else current :: merge_fold next rest) ∧
  (∀ h : list TextSpan, mergeRanges h [] = (h, [])) ∧
  (∀ (h : list TextSpan) (human ai : jsstring),
     ∃ h' hr ar,
       (∀ fuel, (2 * length (tokenizeWithSpans human) + 1 <= fuel)%nat →
          overlapRanges fuel h human ai = Some (h', (hr, ar))) ∧
       StronglySorted by_start (values h' hr) ∧ StronglySorted gap (values h' hr) ∧
       StronglySorted by_start (values h' ar) ∧ StronglySorted gap (values h' ar)).
Proof.
  split_and!.
  - intros h ranges Hrefs Hwf out. unfold out. rewrite mergeRanges_values by done.
    destruct (merge_spec_sorted (values h ranges)) as [Hs Hg].
    split_and!; [done..|]. apply gap_strongly; [done|]. by apply merge_spec_well_formed.
  - done.
  - done.
  - apply overlapRanges_sorted.
Qed.

(** The theorem on the sample store, for the array of its three spans
    in reverse order. *)
Lemma mergeRanges_sorted_gaps_witness :
  Forall (λ l, (l < length sample_store)%nat) [2; 1; 0]%nat ∧
  Forall well_formed (values sample_store [2; 1; 0]%nat) ∧
  values (mergeRanges sample_store [2; 1; 0]%nat).1 (mergeRanges sample_store [2; 1; 0]%nat).2
  = [mkTextSpan 0 15; mkTextSpan 20 30] ∧
  StronglySorted gap
    (values (mergeRanges sample_store [2; 1; 0]%nat).1
            (mergeRanges sample_store [2; 1; 0]%nat).2).
Proof.
  assert (Forall (λ l, (l < length sample_store)%nat) [2; 1; 0]%nat) as H1
    by (repeat constructor; simpl; lia).
  assert (Forall well_formed (values sample_store [2; 1; 0]%nat)) as H2
    by (repeat constructor; unfold well_formed; simpl; lia).
  split_and!; [exact H1|exact H2|reflexivity|].
  destruct mergeRanges_sorted_gaps as [H _].
  destruct (H sample_store [2; 1; 0]%nat H1 H2) as (_ & _ & _ & Hg). exact Hg.
Defined.


(** C10. mergeRanges is idempotent on values: merging the array a first
    call has returned, in the store that call has left, gives the same
    spans again; and an array of spans sorted by [start] with a gap
    between each and the next is returned as it is. Neither needs
    [start <= end] of the spans. *)
Theorem mergeRanges_idempotent (h : list TextSpan) (ranges : list nat) :
  Forall (λ l, (l < length h)%nat) ranges →
  let h1 := (mergeRanges h ranges).1 in
  let out1 := (mergeRanges h ranges).2 in
  values (mergeRanges h1 out1).1 (mergeRanges h1 out1).2 = values h1 out1 ∧
  (StronglySorted by_start (values h ranges) → Sorted gap (values h ranges) →
   values h1 out1 = values h ranges).
Proof.
  intros Hrefs h1 out1.
  destruct (mergeRanges_frame h ranges Hrefs) as (_ & Hout & _).
  pose proof (mergeRanges_values h ranges Hrefs) as Hv1.
  pose proof (mergeRanges_values h1 out1 Hout) as Hv2.
  fold h1 out1 in Hv1. split.
  - rewrite Hv2, Hv1. apply merge_spec_idempotent.
  - intros Hs Hg. rewrite Hv1. by apply merge_spec_id.
Qed.

(** The theorem on the sample store: merging twice, and merging the
    first and third spans, which have a gap between them. *)
Lemma mergeRanges_idempotent_witness :
  Forall (λ l, (l < length sample_store)%nat) [2; 1; 0]%nat ∧
  let h1 := (mergeRanges sample_store [2; 1; 0]%nat).1 in
  let out1 := (mergeRanges sample_store [2; 1; 0]%nat).2 in
  values (mergeRanges h1 out1).1 (mergeRanges h1 out1).2 = values h1 out1 ∧
  values (mergeRanges sample_store [0; 2]%nat).1 (mergeRanges sample_store [0; 2]%nat).2
  = values sample_store [0; 2]%nat.
Proof.
  assert (Forall (λ l, (l < length sample_store)%nat) [2; 1; 0]%nat) as H1
    by (repeat constructor; simpl; lia).
  assert (Forall (λ l, (l < length sample_store)%nat) [0; 2]%nat) as H2
    by (repeat constructor; simpl; lia).
  split; [exact H1|]. intros h1 out1. split.
  - apply (mergeRanges_idempotent sample_store [2; 1; 0]%nat H1).
  - apply (mergeRanges_idempotent sample_store [0; 2]%nat H2).
    + repeat constructor; unfold by_start; simpl; lia.
    + repeat constructor; unfold gap; simpl; lia.
Defined.

(** ** Span mapper *)


(** ** Highlight renderer *)

(** C7. When the ranges lie in the text, [0 <= start <= end <= |text|],
    and each ends at or before the start of the next, the texts of the
    nodes highlightByRanges returns, put together in order, are the
    text; and with no range the function returns the text itself. *)
Theorem highlightByRanges_round_trip text ranges :
  Forall (λ r, 0 <= start r ∧ start r <= end_ r ∧ end_ r <= Z.of_nat (length text)) ranges →
  Sorted (λ x y, end_ x <= start y) ranges →
  rendered_text (highlightByRanges text ranges) = text ∧
  (ranges = [] → highlightByRanges text ranges = RText text).
Proof.
  intros Hin Hs. split; [|by intros ->].
  destruct ranges as [|r ranges]; [done|]. unfold highlightByRanges.
  pose proof (highlight_loop_text text (r :: ranges) 0 [] 0) as Hloop.
  destruct (highlight_loop text 0 (r :: ranges) ([], 0)) as [nodes cursor].
  destruct Hloop as [Hc Hnodes]; [lia|done|done| |done|].
  { simpl. rewrite take_0. constructor; [|done].
    apply Forall_cons in Hin as [(? & _) _]. done. }
  simpl in *. case_bool_decide as Htail.
  - rewrite fmap_app, concat_app. simpl. rewrite app_nil_r, Hnodes.
    unfold slice_from. rewrite slice_in_range by lia.
    rewrite (take_ge (drop _ _)) by (rewrite length_drop; lia). apply take_drop.
  - rewrite Hnodes. apply take_ge. lia.
Qed.

(** The theorem on "hello world" with the ranges [[1, 3)] and [[6, 8)]. *)
Lemma highlightByRanges_round_trip_witness :
  rendered_text (highlightByRanges (js "hello world") [mkTextSpan 1 3; mkTextSpan 6 8])
  = js "hello world".
Proof.
  apply (highlightByRanges_round_trip (js "hello world") [mkTextSpan 1 3; mkTextSpan 6 8]).
  - repeat constructor; simpl; lia.
  - repeat constructor; simpl; lia.
Defined.


(** * Further properties of the code *)

(** ** Block matcher *)

Lemma fmb_loop_invariant (P : list Region * list MatchBlock → Prop) a b minMatchWords :
  (∀ st st', P st → fmb_step a b minMatchWords st = Some st' → P st') →
  ∀ fuel st blocks,
    P st → fmb_loop fuel a b minMatchWords st = Some blocks → P ([], blocks).
Proof.
  intros Hstep fuel. induction fuel as [|fuel IH]; intros st blocks HP Hrun; simpl in Hrun.
  - destruct (fmb_step _ _ _ st) as [st'|] eqn:E; [done|]. simplify_eq.
    destruct st as [[|r rest] bs]; [done|]. simpl in E. by case_bool_decide.
  - destruct (fmb_step _ _ _ st) as [st'|] eqn:E.
    + eapply IH; [|exact Hrun]. by eapply Hstep.
    + simplify_eq. destruct st as [[|r rest] bs]; [done|]. simpl in E.
      by case_bool_decide.
Qed.

Global Instance chained_symmetric : Symmetric chained.
Proof. intros r1 r2 [H|H]; [by right|by left]. Qed.

Lemma chained_sub_region r r1 x : sub_region r1 r → chained r x → chained r1 x.
Proof. unfold sub_region, chained, precedes. lia. Qed.

Lemma fmb_step_chained a b minMatchWords st st' :
  1 <= minMatchWords →
  pairwise chained (st.1 ++ (block_region <$> st.2)) →
  fmb_step a b minMatchWords st = Some st' →
  pairwise chained (st'.1 ++ (block_region <$> st'.2)).
Proof.
  intros Hmin Hpw Hstep.
  destruct st as [[|r rest] blocks]; simpl in *; [done|].
  pose proof (flcb_longest_first a b r) as (Hsz & _ & Hin & _ & _).
  set (best := findLongestCommonBlock _ _ _ _ _ _) in *.
  destruct Hpw as [Hrx Hpw].
  case_bool_decide as Hlt; simplify_eq; [done|].
  destruct (Hin ltac:(lia)) as (Hi1 & Hi2 & Hi3 & Hi4).
  set (after := mkRegion _ _ _ _). set (before := mkRegion (aLo r) _ _ _).
  assert (sub_region after r) by (unfold sub_region, after; simpl; lia).
  assert (sub_region before r) by (unfold sub_region, before; simpl; lia).
  assert (sub_region (block_region best) r)
    by (unfold sub_region, block_region; simpl; lia).
  change (pairwise chained
            (after :: before :: rest ++ (block_region <$> (blocks ++ [best])))).
  rewrite fmap_app. simpl fmap.
  apply (pairwise_perm chained
           (after :: before :: block_region best :: rest ++ (block_region <$> blocks))).
  { do 2 apply Permutation_skip. rewrite Permutation_cons_append.
    by rewrite <- (assoc_L app). }
  assert (∀ x, sub_region x r →
            Forall (chained x) (rest ++ (block_region <$> blocks))) as Hsub.
  { intros x Hx. eapply Forall_impl; [exact Hrx|]. intros y.
    by apply chained_sub_region. }
  assert (chained after before ∧ chained after (block_region best) ∧
          chained before (block_region best)) as (?&?&?).
  { unfold chained, precedes, after, before, block_region; simpl. lia. }
  simpl. split_and!; [| |by apply Hsub|done].
  + do 2 (constructor; [done|]). by apply Hsub.
  + constructor; [done|]. by apply Hsub.
Qed.

Lemma StronglySorted_lookup_lt {A} (R : A → A → Prop) l (i j : nat) x y :
  StronglySorted R l → (i < j)%nat → l !! i = Some x → l !! j = Some y → R x y.
Proof.
  intros Hs. revert i j. induction Hs as [|z l Hs IH Hz]; intros i j Hij Hi Hj; [done|].
  destruct j as [|j]; [lia|]. simpl in Hj. destruct i as [|i]; simpl in Hi.
  - simplify_eq. rewrite Forall_forall in Hz. apply Hz. by eapply list_elem_of_lookup_2.
  - apply (IH i j); [lia|done..].
Qed.

(** X1. The blocks do not cross: in the array findMatchingBlocks returns,
    a block that comes before another one ends at or before the start of
    the other, in [a] and in [b] alike. So the blocks are in the order of
    the text on both sides. *)
Theorem findMatchingBlocks_in_text_order a b minMatchWords :
  1 <= minMatchWords →
  ∃ blocks,
    (∀ fuel, (2 * length a + 1 <= fuel)%nat →
       findMatchingBlocks fuel a b minMatchWords = Some blocks) ∧
    ∀ (i j : nat) x y, (i < j)%nat → blocks !! i = Some x → blocks !! j = Some y →
      aStart x + size x <= aStart y ∧ bStart x + size x <= bStart y.
Proof.
  intros Hmin.
  destruct (fmb_blocks a b minMatchWords Hmin) as (bs & Hrun & Hvalid & _ & Hsorted).
  exists bs. split; [done|]. intros i j x y Hij Hi Hj.
  pose proof (Hrun (2 * length a + 1)%nat ltac:(lia)) as Hrun0.
  unfold findMatchingBlocks in Hrun0.
  destruct (fmb_loop _ a b minMatchWords (fmb_init a b)) as [bs0|] eqn:E; [|done].
  simpl in Hrun0. simplify_eq.
  assert (pairwise chained (block_region <$> bs0)) as Hch.
  { apply (fmb_loop_invariant
             (λ st, pairwise chained (st.1 ++ (block_region <$> st.2)))
             a b minMatchWords
             (λ st st' H, fmb_step_chained a b minMatchWords st st' Hmin H)
             (2 * length a + 1)%nat (fmb_init a b) bs0); [|exact E]. simpl. by split. }
  assert (pairwise chained (block_region <$> sort_by aStart bs0)) as Hch'.
  { eapply (pairwise_perm chained); [|exact Hch].
    apply fmap_Permutation. by rewrite sort_by_perm. }
  pose proof (pairwise_lookup chained _ i j (block_region x) (block_region y) Hch'
                ltac:(lia)) as Hxy.
  rewrite !list_lookup_fmap, Hi, Hj in Hxy. specialize (Hxy eq_refl eq_refl).
  pose proof (StronglySorted_lookup_lt _ _ i j x y Hsorted Hij Hi Hj) as Hle.
  rewrite Forall_forall in Hvalid.
  destruct (Hvalid y (list_elem_of_lookup_2 _ _ _ Hj)) as (Hsy & _).
  destruct (Hvalid x (list_elem_of_lookup_2 _ _ _ Hi)) as (Hsx & _).
  unfold chained, precedes, block_region in Hxy. simpl in *. lia.
Qed.

(** The theorem on the sample arrays, with the threshold 3. *)
Lemma findMatchingBlocks_in_text_order_witness :
  1 <= 3 ∧
  ∃ blocks,
    (∀ fuel, (2 * length sample_a + 1 <= fuel)%nat →
       findMatchingBlocks fuel sample_a sample_b 3 = Some blocks) ∧
    ∀ (i j : nat) x y, (i < j)%nat → blocks !! i = Some x → blocks !! j = Some y →
      aStart x + size x <= aStart y ∧ bStart x + size x <= bStart y.
Proof.
  split; [lia|]. apply (findMatchingBlocks_in_text_order sample_a sample_b 3). lia.
Defined.

Lemma fmb_loop_succ fuel a b minMatchWords st :
  fmb_loop (S fuel) a b minMatchWords st
  = match fmb_step a b minMatchWords st with
    | None => Some st.2
    | Some st' => fmb_loop fuel a b minMatchWords st'
    end.
Proof. done. Qed.

(** The blocks recorded at some iteration are among the blocks returned. *)
Lemma fmb_loop_keeps a b minMatchWords fuel st blocks m :
  m ∈ st.2 → fmb_loop fuel a b minMatchWords st = Some blocks → m ∈ blocks.
Proof.
  intros Hm Hrun.
  apply (fmb_loop_invariant (λ st, m ∈ st.2) a b minMatchWords) in Hrun; [done| |done].
  intros [[|r rest] bs] st' Hin Hstep; simpl in *; [done|].
  case_bool_decide; simplify_eq; simpl; [done|]. apply elem_of_app. by left.
Qed.

(** The first iteration finds a longest common run of the two arrays,
    which is recorded when it reaches the threshold. *)
Lemma fmb_blocks_complete a b minMatchWords fuel blocks x y s :
  1 <= minMatchWords →
  findMatchingBlocks fuel a b minMatchWords = Some blocks →
  minMatchWords <= s →
  0 <= x → x + s <= Z.of_nat (length a) → 0 <= y → y + s <= Z.of_nat (length b) →
  common_block a b x y s →
  ∃ m, m ∈ blocks ∧ s <= size m.
Proof.
  intros Hmin Hrun Hs Hx1 Hx2 Hy1 Hy2 Hcom. unfold findMatchingBlocks in Hrun.
  destruct (fmb_loop fuel a b minMatchWords (fmb_init a b)) as [bs0|] eqn:E; [|done].
  simpl in Hrun. simplify_eq.
  pose proof (flcb_longest_first a b
                (mkRegion 0 (Z.of_nat (length a)) 0 (Z.of_nat (length b))))
    as (_ & _ & _ & _ & Hmax).
  destruct (Hmax x y s) as [Hle _]; [lia|unfold in_region; simpl; lia|done|].
  clear Hmax. cbn [aLo aHi bLo bHi] in Hle.
  set (best := findLongestCommonBlock _ _ _ _ _ _) in *.
  exists best. split; [|done]. rewrite sort_by_perm.
  assert (fmb_step a b minMatchWords (fmb_init a b)
          = Some ([mkRegion (aStart best + size best) (Z.of_nat (length a))
                            (bStart best + size best) (Z.of_nat (length b));
                   mkRegion 0 (aStart best) 0 (bStart best)], [best])) as Hstep.
  { unfold fmb_step, fmb_init. cbn [aLo aHi bLo bHi]. fold best.
    by rewrite bool_decide_eq_false_2 by lia. }
  destruct fuel as [|fuel]; cbn [fmb_loop] in E; rewrite Hstep in E; [done|].
  eapply fmb_loop_keeps; [|exact E]. simpl. by apply list_elem_of_singleton.
Qed.

(** X2. A longest common run is always reported: for every run of [s]
    equal tokens of [a] and [b], with [s] at least the threshold, the
    array findMatchingBlocks returns has a block of at least [s] tokens. *)
Theorem findMatchingBlocks_reports_longest a b minMatchWords :
  1 <= minMatchWords →
  ∃ blocks,
    (∀ fuel, (2 * length a + 1 <= fuel)%nat →
       findMatchingBlocks fuel a b minMatchWords = Some blocks) ∧
    ∀ x y s,
      minMatchWords <= s →
      0 <= x → x + s <= Z.of_nat (length a) → 0 <= y → y + s <= Z.of_nat (length b) →
      common_block a b x y s →
      ∃ m, m ∈ blocks ∧ s <= size m.
Proof.
  intros Hmin. destruct (fmb_blocks a b minMatchWords Hmin) as (bs & Hrun & _).
  exists bs. split; [done|]. intros x y s.
  by apply (fmb_blocks_complete a b minMatchWords (2 * length a + 1) bs x y s Hmin);
    [apply Hrun].
Qed.

(** On the sample arrays the run "a b c" at [(5, 4)] forces a block of
    at least 3 tokens. *)
Lemma findMatchingBlocks_reports_longest_witness :
  1 <= 3 ∧
  ∃ blocks,
    (∀ fuel, (2 * length sample_a + 1 <= fuel)%nat →
       findMatchingBlocks fuel sample_a sample_b 3 = Some blocks) ∧
    ∃ m, m ∈ blocks ∧ 3 <= size m.
Proof.
  split; [lia|].
  destruct (findMatchingBlocks_reports_longest sample_a sample_b 3) as (bs & Hrun & H); [lia|].
  exists bs. split; [exact Hrun|].
  apply (H 5 4 3); [lia|lia|simpl; lia|lia|simpl; lia|].
  intros k Hk. assert (k = 0 ∨ k = 1 ∨ k = 2) as [->|[->| ->]] by lia; reflexivity.
Defined.

(** X3. findMatchingBlocks returns no block exactly when the two arrays
    have no run of [minMatchWords] equal tokens. *)
Theorem findMatchingBlocks_empty_iff a b minMatchWords :
  1 <= minMatchWords →
  ∃ blocks,
    (∀ fuel, (2 * length a + 1 <= fuel)%nat →
       findMatchingBlocks fuel a b minMatchWords = Some blocks) ∧
    (blocks = [] ↔
     ∀ x y, 0 <= x → x + minMatchWords <= Z.of_nat (length a) →
            0 <= y → y + minMatchWords <= Z.of_nat (length b) →
            ¬ common_block a b x y minMatchWords).
Proof.
  intros Hmin. destruct (fmb_blocks a b minMatchWords Hmin) as (bs & Hrun & Hvalid & _).
  exists bs. split; [done|]. split.
  - intros -> x y Hx1 Hx2 Hy1 Hy2 Hcom.
    destruct (fmb_blocks_complete a b minMatchWords (2 * length a + 1) [] x y
                minMatchWords Hmin) as (m & Hm & _); [by apply Hrun|lia|done..|].
    by apply elem_of_nil in Hm.
  - intros Hnone. destruct bs as [|m bs]; [done|]. exfalso.
    apply Forall_cons in Hvalid as [(Hsz & (H1 & H2 & H3 & H4) & Hcom) _]. simpl in *.
    apply (Hnone (aStart m) (bStart m)); [lia..|].
    intros k Hk. apply Hcom. lia.
Qed.

(** The theorem with the threshold 3 on "a b" and "a b": no block, as the
    arrays are too short for a run of 3 tokens. *)
Lemma findMatchingBlocks_empty_iff_witness :
  1 <= 3 ∧
  findMatchingBlocks 5 [js "a"; js "b"] [js "a"; js "b"] 3 = Some [].
Proof.
  split; [lia|].
  destruct (findMatchingBlocks_empty_iff [js "a"; js "b"] [js "a"; js "b"] 3)
    as (bs & Hrun & [_ Hempty]); [lia|].
  rewrite (Hrun 5%nat) by (simpl; lia). f_equal. apply Hempty.
  intros x y Hx1 Hx2 _ _ _. simpl in Hx2. lia.
Defined.

Lemma flcb_empty_region a b lo_a hi_a lo_b hi_b :
  lo_a >= hi_a ∨ lo_b >= hi_b →
  findLongestCommonBlock a b lo_a hi_a lo_b hi_b = mkMatchBlock lo_a lo_b 0.
Proof.
  intros H. unfold findLongestCommonBlock.
  destruct H; [rewrite (bool_decide_eq_true_2 (lo_a >= hi_a)) by done; done|].
  rewrite (bool_decide_eq_true_2 (lo_b >= hi_b)) by done. by rewrite orb_true_r.
Qed.

Lemma flcb_same_array a :
  (1 <= length a)%nat →
  findLongestCommonBlock a a 0 (Z.of_nat (length a)) 0 (Z.of_nat (length a))
  = mkMatchBlock 0 0 (Z.of_nat (length a)).
Proof.
  intros Hlen.
  pose proof (flcb_longest_first a a
                (mkRegion 0 (Z.of_nat (length a)) 0 (Z.of_nat (length a))))
    as (Hsz & _ & Hin & _ & Hmax). simpl in *.
  destruct (Hmax 0 0 (Z.of_nat (length a))) as [Hle _];
    [lia|unfold in_region; simpl; lia|by intros k _|].
  destruct (Hin ltac:(lia)) as (H1 & H2 & H3 & H4). simpl in *.
  destruct (findLongestCommonBlock _ _ _ _ _ _) as [x y s]. simpl in *.
  f_equal; lia.
Qed.

Lemma fmb_same_array a minMatchWords fuel :
  1 <= minMatchWords → minMatchWords <= Z.of_nat (length a) → (3 <= fuel)%nat →
  findMatchingBlocks fuel a a minMatchWords
  = Some [mkMatchBlock 0 0 (Z.of_nat (length a))].
Proof.
  intros Hmin Hlen Hfuel. unfold findMatchingBlocks.
  enough (fmb_loop 3 a a minMatchWords (fmb_init a a)
          = Some [mkMatchBlock 0 0 (Z.of_nat (length a))]) as H3.
  { by rewrite (fmb_loop_mono a a minMatchWords 3 fuel _ _ H3 Hfuel). }
  rewrite fmb_loop_succ. unfold fmb_init, fmb_step at 1. cbn [aLo aHi bLo bHi].
  rewrite flcb_same_array by lia. cbn [size aStart bStart].
  rewrite bool_decide_eq_false_2 by lia.
  rewrite fmb_loop_succ. unfold fmb_step at 1. cbn [aLo aHi bLo bHi].
  rewrite flcb_empty_region by lia. cbn [size].
  rewrite bool_decide_eq_true_2 by lia.
  rewrite fmb_loop_succ. unfold fmb_step at 1. cbn [aLo aHi bLo bHi].
  rewrite flcb_empty_region by lia. cbn [size].
  rewrite bool_decide_eq_true_2 by lia.
  done.
Qed.

(** X4. An array compared with itself gives the one block of all its
    tokens, when it has at least [minMatchWords] of them. Three
    iterations are enough. *)
Theorem findMatchingBlocks_same_array a minMatchWords fuel :
  1 <= minMatchWords → minMatchWords <= Z.of_nat (length a) → (3 <= fuel)%nat →
  findMatchingBlocks fuel a a minMatchWords
  = Some [mkMatchBlock 0 0 (Z.of_nat (length a))].
Proof. apply fmb_same_array. Qed.

(** The theorem on the first sample array, with the threshold 3. *)
Lemma findMatchingBlocks_same_array_witness :
  1 <= 3 ∧ 3 <= Z.of_nat (length sample_a) ∧ (3 <= 5)%nat ∧
  findMatchingBlocks 5 sample_a sample_a 3 = Some [mkMatchBlock 0 0 8].
Proof.
  split_and!; [lia|simpl; lia|lia|].
  apply (findMatchingBlocks_same_array sample_a 3 5); [lia|simpl; lia|lia].
Defined.

(** X5. With a threshold of zero or less findMatchingBlocks returns
    nothing, whatever the arrays and the bound on the iterations: each
    iteration replaces the region it pops by two. *)
Theorem findMatchingBlocks_no_result_below_one a b minMatchWords fuel :
  minMatchWords <= 0 → findMatchingBlocks fuel a b minMatchWords = None.
Proof.
  intros Hmin. unfold findMatchingBlocks.
  by rewrite (fmb_loop_diverges a b minMatchWords fuel (fmb_init a b)).
Qed.

(** The theorem on the sample arrays, with the threshold 0. *)
Lemma findMatchingBlocks_no_result_below_one_witness :
  0 <= 0 ∧ findMatchingBlocks 100 sample_a sample_b 0 = None.
Proof.
  split; [lia|]. apply (findMatchingBlocks_no_result_below_one sample_a sample_b 0 100). lia.
Defined.


(** ** Tokenizer *)

Lemma tokenize_from_bounds text pos run :
  Forall (λ t, pos - Z.of_nat (length run) <= tok_start t ∧ tok_start t < tok_end t
               ∧ tok_end t <= pos + Z.of_nat (length text))
    (tokenize_from pos run text) ∧
  StronglySorted (λ x y, tok_end x < tok_start y) (tokenize_from pos run text).
Proof.
  revert pos run. induction text as [|c text IH]; intros pos run; simpl.
  - destruct run; simpl; split; repeat constructor; simpl; lia.
  - destruct (is_word_unit c).
    + destruct (IH (pos + 1) (run ++ [c])) as [IH1 IH2]. split; [|done].
      eapply Forall_impl; [exact IH1|]. simpl. intros t. rewrite length_app. simpl. lia.
    + destruct (IH (pos + 1) []) as [IH1 IH2]. simpl in IH1.
      assert (Forall (λ t, pos - Z.of_nat (length run) <= tok_start t
                           ∧ tok_start t < tok_end t
                           ∧ tok_end t <= pos + Z.of_nat (S (length text)))
                (tokenize_from (pos + 1) [] text)) as IH1'.
      { eapply Forall_impl; [exact IH1|]. simpl. intros; lia. }
      destruct run as [|u run]; simpl; [done|]. split.
      * constructor; [simpl; lia|done].
      * constructor; [done|]. eapply Forall_impl; [exact IH1|]. simpl. intros; lia.
Qed.

(** X6. The tokens of a text are spans of the text that are not empty,
    [0 <= start < end <= |text|], and they come in the order of the
    text, each ending before the next one starts. *)
Theorem tokenizeWithSpans_in_order text :
  Forall (λ t, 0 <= tok_start t ∧ tok_start t < tok_end t
               ∧ tok_end t <= Z.of_nat (length text))
    (tokenizeWithSpans text) ∧
  StronglySorted (λ x y, tok_end x < tok_start y) (tokenizeWithSpans text).
Proof.
  destruct (tokenize_from_bounds text 0 []) as [H1 H2]. split; [|done].
  eapply Forall_impl; [exact H1|]. simpl. intros; lia.
Qed.

Lemma tokenize_from_token_of text pre run :
  Forall (λ c, is_word_unit c = true) run →
  (∀ c, last pre = Some c → is_word_unit c = false) →
  Forall (token_of (pre ++ run ++ text))
    (tokenize_from (Z.of_nat (length pre) + Z.of_nat (length run)) run text).
Proof.
  revert pre run. induction text as [|c text IH]; intros pre run Hrun Hpre; simpl.
  - destruct run as [|u run]; simpl; [done|]. constructor; [|done].
    exists pre, (u :: run), []. simpl. split_and!; try done. lia.
  - destruct (is_word_unit c) eqn:Hc.
    + specialize (IH pre (run ++ [c])).
      rewrite length_app, <- (assoc_L app) in IH. simpl in IH.
      replace (Z.of_nat (length pre) + Z.of_nat (length run) + 1)
        with (Z.of_nat (length pre) + Z.of_nat (length run + 1)) by lia.
      apply IH; [|done]. apply Forall_app. split; [done|]. by constructor.
    + apply Forall_app. split.
      * destruct run as [|u run]; simpl; [done|]. constructor; [|done].
        exists pre, (u :: run), (c :: text). simpl. split_and!; try done.
        -- lia.
        -- by intros ? [= <-].
      * specialize (IH (pre ++ run ++ [c]) []).
        rewrite !length_app, <- !(assoc_L app) in IH. simpl in IH.
        replace (Z.of_nat (length pre) + Z.of_nat (length run) + 1)
          with (Z.of_nat (length pre + (length run + 1)) + 0) by lia.
        apply IH; [done|]. intros c'. rewrite (assoc_L app), last_snoc.
        by intros [= <-].
Qed.

Lemma slice_middle (pre w post : jsstring) :
  slice (pre ++ w ++ post) (Z.of_nat (length pre))
    (Z.of_nat (length pre) + Z.of_nat (length w)) = w.
Proof.
  rewrite slice_in_range by (rewrite ?length_app; lia).
  rewrite Nat2Z.id, drop_app_length.
  replace (Z.to_nat _) with (length w) by lia. by rewrite take_app_length.
Qed.

(** X7. Every token is the lower-case form of the units of its span,
    [text.slice(start, end)]; these are word units, and the unit before
    the span and the unit after it, when there are such, are not: the
    span is a whole run of word units. *)
Theorem tokenizeWithSpans_token_text text :
  Forall (λ t,
    token t = lower_unit <$> slice text (tok_start t) (tok_end t) ∧
    Forall (λ c, is_word_unit c = true) (slice text (tok_start t) (tok_end t)) ∧
    (∀ c, zlookup text (tok_start t - 1) = Some c → is_word_unit c = false) ∧
    (∀ c, zlookup text (tok_end t) = Some c → is_word_unit c = false))
    (tokenizeWithSpans text).
Proof.
  pose proof (tokenize_from_token_of text [] [] ltac:(done) ltac:(done)) as H.
  simpl in H. eapply Forall_impl; [exact H|]. clear H.
  intros t (pre & w & post & -> & Hs & He & Ht & Hw & Hword & Hbefore & Hafter).
  rewrite Hs, He, slice_middle. split_and!; [done..| |].
  - intros c Hc. apply Hbefore. unfold zlookup in Hc. case_decide; [|done].
    rewrite last_lookup. rewrite <- Hc. rewrite lookup_app_l by lia.
    f_equal. lia.
  - intros c Hc. apply Hafter. unfold zlookup in Hc. rewrite decide_True in Hc by lia.
    rewrite head_lookup. rewrite <- Hc. rewrite (assoc_L app).
    rewrite lookup_app_r by (rewrite length_app; lia). f_equal.
    rewrite length_app. lia.
Qed.

Lemma tokenize_from_covers text pre run (p : nat) c :
  (pre ++ run ++ text) !! p = Some c → (length pre <= p)%nat → is_word_unit c = true →
  Exists (λ t, tok_start t <= Z.of_nat p ∧ Z.of_nat p < tok_end t)
    (tokenize_from (Z.of_nat (length pre) + Z.of_nat (length run)) run text).
Proof.
  revert pre run. induction text as [|c' text IH]; intros pre run Hp Hle Hc; simpl.
  - rewrite app_nil_r in Hp. apply lookup_lt_Some in Hp. rewrite length_app in Hp.
    destruct run as [|u run]; simpl in *; [lia|]. constructor. simpl. lia.
  - destruct (is_word_unit c') eqn:Hc'.
    + specialize (IH pre (run ++ [c'])).
      rewrite length_app, <- (assoc_L app) in IH. simpl in IH.
      replace (Z.of_nat (length pre) + Z.of_nat (length run) + 1)
        with (Z.of_nat (length pre) + Z.of_nat (length run + 1)) by lia.
      by apply IH.
    + apply Exists_app.
      destruct (decide (p < length pre + length run)%nat) as [Hlt|Hge].
      * left. destruct run as [|u run]; simpl in *; [lia|]. constructor. simpl. lia.
      * right. specialize (IH (pre ++ run ++ [c']) []).
        rewrite !length_app, <- !(assoc_L app) in IH. simpl in IH.
        replace (Z.of_nat (length pre) + Z.of_nat (length run) + 1)
          with (Z.of_nat (length pre + (length run + 1)) + 0) by lia.
        apply IH; [done| |done].
        destruct (decide (p = length pre + length run)%nat) as [->|]; [|lia].
        rewrite (assoc_L app) in Hp.
        rewrite lookup_app_r in Hp by (rewrite length_app; lia).
        rewrite length_app, Nat.sub_diag in Hp. simpl in Hp. congruence.
Qed.

(** X8. No word unit is left out: every position of the text that holds
    a unit of the class [[a-zA-Z0-9']] lies in the span of a token. *)
Theorem tokenizeWithSpans_covers_words text (p : nat) c :
  text !! p = Some c → is_word_unit c = true →
  Exists (λ t, tok_start t <= Z.of_nat p ∧ Z.of_nat p < tok_end t)
    (tokenizeWithSpans text).
Proof.
  intros Hp Hc. by apply (tokenize_from_covers text [] [] p c); [|simpl; lia|].
Qed.

(** The theorem on "ab cd" at position 3, the unit "c". *)
Lemma tokenizeWithSpans_covers_words_witness :
  js "ab cd" !! 3%nat = Some 99 ∧ is_word_unit 99 = true ∧
  Exists (λ t, tok_start t <= 3 ∧ 3 < tok_end t) (tokenizeWithSpans (js "ab cd")).
Proof.
  split_and!; [reflexivity..|].
  apply (tokenizeWithSpans_covers_words (js "ab cd") 3 99); reflexivity.
Defined.

Lemma tokenize_from_shift text pos run d :
  tokenize_from (pos + d) run text = shift_token d <$> tokenize_from pos run text.
Proof.
  revert pos run. induction text as [|c text IH]; intros pos run; simpl.
  - destruct run; simpl; [done|]. unfold shift_token. simpl. do 2 f_equal; lia.
  - destruct (is_word_unit c).
    + rewrite <- IH. f_equal. lia.
    + rewrite fmap_app, <- IH. f_equal.
      * destruct run; simpl; [done|]. unfold shift_token. simpl. do 2 f_equal; lia.
      * f_equal. lia.
Qed.

Lemma tokenize_from_app_sep t1 c t2 pos run :
  is_word_unit c = false →
  tokenize_from pos run (t1 ++ c :: t2)
  = tokenize_from pos run t1 ++ tokenize_from (pos + Z.of_nat (length t1) + 1) [] t2.
Proof.
  intros Hc. revert pos run. induction t1 as [|u t1 IH]; intros pos run; simpl.
  - rewrite Hc. do 2 f_equal. lia.
  - destruct (is_word_unit u).
    + rewrite IH. do 2 f_equal. lia.
    + rewrite IH, <- (assoc_L app). do 3 f_equal. lia.
Qed.

Lemma tokenizeWithSpans_app_sep t1 c t2 :
  is_word_unit c = false →
  tokenizeWithSpans (t1 ++ c :: t2)
  = tokenizeWithSpans t1
    ++ (shift_token (Z.of_nat (length t1) + 1) <$> tokenizeWithSpans t2).
Proof.
  intros Hc. unfold tokenizeWithSpans. rewrite (tokenize_from_app_sep t1 c t2 0 []) by done.
  f_equal. rewrite <- tokenize_from_shift. f_equal.
Qed.

(** X9. A unit that is not a word unit separates: the tokens of
    [t1 ++ c :: t2] are the tokens of [t1] followed by the tokens of
    [t2], moved by [|t1| + 1] units. The separator gives no token and no
    token spans it. *)
Theorem tokenizeWithSpans_separator t1 c t2 :
  is_word_unit c = false →
  tokenizeWithSpans (t1 ++ c :: t2)
  = tokenizeWithSpans t1
    ++ (shift_token (Z.of_nat (length t1) + 1) <$> tokenizeWithSpans t2).
Proof. apply tokenizeWithSpans_app_sep. Qed.

(** The theorem on "ab" and "cd" with a line feed between them. *)
Lemma tokenizeWithSpans_separator_witness :
  is_word_unit 10 = false ∧
  tokenizeWithSpans (js "ab" ++ 10 :: js "cd")
  = [mkTokenSpan (js "ab") 0 2; mkTokenSpan (js "cd") 3 5].
Proof.
  split; [reflexivity|].
  rewrite (tokenizeWithSpans_separator (js "ab") 10 (js "cd")); reflexivity.
Defined.


(** ** Range merger *)

Lemma merge_fold_covers x cur rest :
  StronglySorted by_start (cur :: rest) →
  Exists (covers x) (merge_fold cur rest) ↔ Exists (covers x) (cur :: rest).
Proof.
  revert cur. induction rest as [|next rest IH]; intros cur Hs; simpl; [done|].
  apply StronglySorted_inv in Hs as [Hs Hcur].
  apply Forall_cons in Hcur as [Hcn Hcur].
  pose proof Hs as Hs'. apply StronglySorted_inv in Hs' as [Hrest Hnext].
  case_bool_decide as Hcond.
  - rewrite IH by (by constructor). rewrite !Exists_cons.
    unfold covers, by_start in *. simpl. split; intros H.
    + destruct H as [H|H]; [|by auto].
      destruct (decide (x < end_ cur)); [left; lia|right; left; lia].
    + destruct H as [H|[H|H]]; [left; lia|left; lia|by right].
  - rewrite Exists_cons, IH by done. by rewrite (Exists_cons _ cur).
Qed.

Lemma merge_spec_covers x ranges :
  Exists (covers x) (merge_spec ranges) ↔ Exists (covers x) ranges.
Proof.
  unfold merge_spec. rewrite <- (sort_by_perm start ranges) at 2.
  pose proof (sort_by_sorted start ranges) as Hs.
  destruct (sort_by start ranges) as [|s0 rest]; [done|].
  by apply merge_fold_covers.
Qed.

(** X10. mergeRanges keeps the characters covered: an offset lies in one
    of the spans it returns exactly when it lies in one of the spans of
    its input, whatever the spans. *)
Theorem mergeRanges_same_cover (h : list TextSpan) (ranges : list nat) x :
  Forall (λ l, (l < length h)%nat) ranges →
  Exists (covers x) (values (mergeRanges h ranges).1 (mergeRanges h ranges).2)
  ↔ Exists (covers x) (values h ranges).
Proof. intros Hrefs. rewrite mergeRanges_values by done. apply merge_spec_covers. Qed.

(** The theorem on the sample store, at the offset 12, which only the
    second span covers and the first span returned covers. *)
Lemma mergeRanges_same_cover_witness :
  Forall (λ l, (l < length sample_store)%nat) [2; 1; 0]%nat ∧
  Exists (covers 12)
    (values (mergeRanges sample_store [2; 1; 0]%nat).1
            (mergeRanges sample_store [2; 1; 0]%nat).2).
Proof.
  assert (Forall (λ l, (l < length sample_store)%nat) [2; 1; 0]%nat) as H
    by (repeat constructor; simpl; lia).
  split; [exact H|].
  apply (mergeRanges_same_cover sample_store [2; 1; 0]%nat 12 H).
  apply Exists_cons_tl, Exists_cons_hd. unfold covers. simpl. lia.
Defined.

(** The object [last] keeps its start, and its end does not decrease. *)
Lemma merge_from_last rest h last :
  (last < length h)%nat →
  start ((merge_from h last rest).1 !!! last) = start (h !!! last) ∧
  end_ (h !!! last) <= end_ ((merge_from h last rest).1 !!! last).
Proof.
  revert h. induction rest as [|c rest IH]; intros h Hlast; simpl; [lia|].
  case_bool_decide.
  - set (v := mkTextSpan _ _).
    destruct (IH (<[last := v]> h)) as [IH1 IH2]; [by rewrite length_insert|].
    rewrite list_lookup_total_insert_eq in IH1, IH2 by done.
    unfold v in *. simpl in *. lia.
  - pose proof (merge_from_frame rest (h ++ [h !!! c]) (length h)) as Hfr.
    destruct (merge_from (h ++ [h !!! c]) (length h) rest) as [h' out]. simpl in *.
    rewrite length_app in Hfr. simpl in Hfr. destruct Hfr as (_ & _ & Hfr); [lia|].
    rewrite Hfr by lia. rewrite lookup_total_app_l by done. lia.
Qed.

(** X11. mergeRanges writes to one object at most, the first of the
    array after sorting: every other object of the store is as before.
    That object keeps its start and its end does not decrease. Objects
    are only added to the store, so references stay valid. *)
Theorem mergeRanges_writes (h : list TextSpan) (ranges : list nat) :
  Forall (λ l, (l < length h)%nat) ranges →
  (length h <= length (mergeRanges h ranges).1)%nat ∧
  ∀ l, (l < length h)%nat →
    start ((mergeRanges h ranges).1 !!! l) = start (h !!! l) ∧
    end_ (h !!! l) <= end_ ((mergeRanges h ranges).1 !!! l) ∧
    (head (sort_by (λ l, start (h !!! l)) ranges) ≠ Some l →
     (mergeRanges h ranges).1 !!! l = h !!! l).
Proof.
  intros Hrefs. destruct (mergeRanges_frame h ranges Hrefs) as (Hlen & _ & Hframe).
  split; [done|]. intros l Hl.
  destruct (decide (head (sort_by (λ l, start (h !!! l)) ranges) = Some l)) as [Hhd|Hhd].
  - split_and!; [| |done].
    all: unfold mergeRanges; destruct ranges as [|r ranges]; [simpl; lia|].
    all: destruct (sort_by _ (r :: ranges)) as [|s0 rest]; [done|].
    all: simpl in Hhd; simplify_eq.
    all: rewrite (foldl_merge_step rest h [] l : foldl merge_step (h, [l]) rest = _).
    all: csimpl; by apply merge_from_last.
  - rewrite Hframe by done. split_and!; [done|lia|done].
Qed.

(** The theorem on the sample store: the third span, which is not the
    first after sorting, is as before. *)
Lemma mergeRanges_writes_witness :
  Forall (λ l, (l < length sample_store)%nat) [2; 1; 0]%nat ∧
  (mergeRanges sample_store [2; 1; 0]%nat).1 !!! 2%nat = sample_store !!! 2%nat.
Proof.
  assert (Forall (λ l, (l < length sample_store)%nat) [2; 1; 0]%nat) as H
    by (repeat constructor; simpl; lia).
  split; [exact H|].
  destruct (mergeRanges_writes sample_store [2; 1; 0]%nat H) as [_ Hw].
  apply (Hw 2%nat); [simpl; lia|]. simpl. discriminate.
Defined.


(** ** Span mapper *)

Lemma block_range_no_throw spans sd block :
  1 <= size block → block_range spans sd block ≠ Throw.
Proof.
  intros Hsz.
  destruct (decide (0 <= side_start sd block
                    ∧ side_start sd block + size block <= Z.of_nat (length spans)))
    as [Hin|Hout].
  - destruct (block_range_within spans sd block) as (first & last & _ & _ & ->); [|done].
    unfold block_within. lia.
  - rewrite block_range_outside; [done..|]. unfold block_within. lia.
Qed.

Lemma collect_ranges_emitted spans sd blocks h refs :
  Forall (λ b, block_range spans sd b ≠ Throw) blocks →
  collect_ranges spans sd blocks (h, refs)
  = Some (h ++ emitted spans sd blocks,
          refs ++ seq (length h) (length (emitted spans sd blocks))).
Proof.
  intros Hno. revert h refs. unfold emitted.
  induction Hno as [|block blocks Hb _ IH]; intros h refs; simpl.
  - by rewrite !app_nil_r.
  - destruct (block_range spans sd block) as [|s|] eqn:E; [apply IH| |done].
    simpl. rewrite IH. rewrite <- !(assoc_L app). simpl. rewrite length_app. simpl.
    by replace (length h + 1)%nat with (S (length h)) by lia.
Qed.

(** When no iteration throws, the span mapper returns the merge of the
    spans it has pushed and leaves the objects of the store alone. *)
Lemma blocksToCharRanges_emitted h blocks spans sd :
  Forall (λ b, block_range spans sd b ≠ Throw) blocks →
  ∃ h' out,
    blocksToCharRanges h blocks spans sd = Some (h', out) ∧
    values h' out = merge_spec (emitted spans sd blocks) ∧
    (length h <= length h')%nat ∧
    Forall (λ l, (l < length h')%nat) out ∧
    ∀ l, (l < length h)%nat → h' !!! l = h !!! l.
Proof.
  intros Hno. unfold blocksToCharRanges.
  rewrite (collect_ranges_emitted spans sd blocks h [] Hno). simpl.
  set (vs := emitted spans sd blocks). set (refs := seq (length h) (length vs)).
  assert (Forall (λ l, (l < length (h ++ vs))%nat) refs) as Hrefs.
  { apply Forall_forall. intros l Hl. apply elem_of_seq in Hl.
    rewrite length_app. lia. }
  pose proof (mergeRanges_values (h ++ vs) refs Hrefs) as Hvals.
  destruct (mergeRanges_frame (h ++ vs) refs Hrefs) as (Hlen & Hout & Hframe).
  destruct (mergeRanges (h ++ vs) refs) as [h' out] eqn:E. simpl in *.
  exists h', out. rewrite Hvals. unfold refs, vs. rewrite values_fresh.
  split_and!; [done|done| |done|].
  - rewrite length_app in Hlen. lia.
  - intros l Hl. rewrite Hframe.
    + by rewrite lookup_total_app_l.
    + rewrite length_app. lia.
    + intros Hhd. apply head_Some_elem_of in Hhd.
      rewrite sort_by_perm in Hhd. apply elem_of_seq in Hhd. lia.
Qed.

(** X12. On blocks of at least one token blocksToCharRanges does not
    throw, whatever the tokens and the side: it returns the merge of the
    spans of the blocks its guard lets through, and it changes no object
    that was in the store. *)
Theorem blocksToCharRanges_nonempty_blocks (h : list TextSpan) blocks spans sd :
  Forall (λ b, 1 <= size b) blocks →
  ∃ h' out,
    blocksToCharRanges h blocks spans sd = Some (h', out) ∧
    values h' out = merge_spec (emitted spans sd blocks) ∧
    ∀ l, (l < length h)%nat → h' !!! l = h !!! l.
Proof.
  intros Hsz.
  destruct (blocksToCharRanges_emitted h blocks spans sd) as (h' & out & H1 & H2 & _ & _ & H3).
  { eapply Forall_impl; [exact Hsz|]. intros b. apply block_range_no_throw. }
  by exists h', out.
Qed.

(** The theorem on the tokens of "ab cd ef" and two blocks, of which the
    second leaves the tokens and is skipped. *)
Lemma blocksToCharRanges_nonempty_blocks_witness :
  Forall (λ b, 1 <= size b) [mkMatchBlock 0 0 2; mkMatchBlock 2 2 2] ∧
  ∃ h' out,
    blocksToCharRanges [] [mkMatchBlock 0 0 2; mkMatchBlock 2 2 2]
      (tokenizeWithSpans (js "ab cd ef")) SideA = Some (h', out) ∧
    values h' out = [mkTextSpan 0 5].
Proof.
  assert (Forall (λ b, 1 <= size b) [mkMatchBlock 0 0 2; mkMatchBlock 2 2 2]) as H
    by (repeat constructor; simpl; lia).
  split; [exact H|].
  destruct (blocksToCharRanges_nonempty_blocks [] _ (tokenizeWithSpans (js "ab cd ef"))
              SideA H) as (h' & out & H1 & H2 & _).
  exists h', out. split; [exact H1|]. rewrite H2. reflexivity.
Defined.

(** X13. For a block of at least one token the guard of
    blocksToCharRanges is exact: a block whose tokens [start] to
    [start + size - 1] are tokens of the side gives the span from the
    start of the first of them to the end of the last, and any other
    block is skipped. *)
Theorem block_range_guard spans sd block :
  1 <= size block →
  (block_within sd (length spans) block →
   ∃ first last,
     zlookup spans (side_start sd block) = Some first ∧
     zlookup spans (side_start sd block + size block - 1) = Some last ∧
     block_range spans sd block = Emit (mkTextSpan (tok_start first) (tok_end last))) ∧
  (¬ block_within sd (length spans) block → block_range spans sd block = Skip).
Proof.
  intros Hsz. split.
  - apply block_range_within.
  - by apply block_range_outside.
Qed.

(** The theorem on the tokens of "ab cd ef": the block of the tokens 1
    and 2 on side [b], and a block that starts at token 2 and has two
    tokens. *)
Lemma block_range_guard_witness :
  1 <= 2 ∧
  block_range (tokenizeWithSpans (js "ab cd ef")) SideB (mkMatchBlock 0 1 2)
  = Emit (mkTextSpan 3 8) ∧
  block_range (tokenizeWithSpans (js "ab cd ef")) SideB (mkMatchBlock 0 2 2) = Skip.
Proof.
  split; [lia|]. split.
  - destruct (block_range_guard (tokenizeWithSpans (js "ab cd ef")) SideB
                (mkMatchBlock 0 1 2)) as [Hin _]; [simpl; lia|].
    destruct Hin as (first & last & Hf & Hl & ->).
    { unfold block_within. simpl. lia. }
    vm_compute in Hf, Hl. by simplify_eq.
  - destruct (block_range_guard (tokenizeWithSpans (js "ab cd ef")) SideB
                (mkMatchBlock 0 2 2)) as [_ Hout]; [simpl; lia|].
    apply Hout. unfold block_within. simpl. lia.
Defined.

(** ** Highlight renderer *)

Lemma highlight_loop_marks text ranges idx nodes cursor :
  marks (highlight_loop text idx ranges (nodes, cursor)).1
  = marks nodes ++ ((λ r, slice text (start r) (end_ r)) <$> ranges).
Proof.
  revert idx nodes cursor. induction ranges as [|r ranges IH]; intros idx nodes cursor;
    cbn [highlight_loop].
  - by rewrite app_nil_r.
  - unfold highlight_step. rewrite IH. unfold marks.
    case_bool_decide; rewrite !omap_app; simpl; by rewrite <- !(assoc_L app).
Qed.

(** X14. Every range is highlighted, with the units
    [text.slice(start, end)], whatever the ranges: the [<mark>] nodes of
    the result are, in order, the slices of the ranges. With no range the
    result is the text itself. *)
Theorem highlightByRanges_marks text ranges :
  match highlightByRanges text ranges with
  | RText t => ranges = [] ∧ t = text
  | RNodes nodes =>
      ranges ≠ [] ∧ marks nodes = (λ r, slice text (start r) (end_ r)) <$> ranges
  end.
Proof.
  destruct ranges as [|r ranges]; [done|]. unfold highlightByRanges.
  pose proof (highlight_loop_marks text (r :: ranges) 0 [] 0) as Hm.
  destruct (highlight_loop text 0 (r :: ranges) ([], 0)) as [nodes cursor].
  simpl in Hm. split; [done|]. case_bool_decide; [|done].
  unfold marks in *. rewrite omap_app. simpl. by rewrite app_nil_r.
Qed.

Lemma highlight_loop_keys text ranges idx nodes cursor :
  Forall (key_below idx) (node_key_of <$> nodes) → NoDup (node_key_of <$> nodes) →
  Forall (key_below (idx + length ranges))
    (node_key_of <$> (highlight_loop text idx ranges (nodes, cursor)).1) ∧
  NoDup (node_key_of <$> (highlight_loop text idx ranges (nodes, cursor)).1).
Proof.
  revert idx nodes cursor. induction ranges as [|r ranges IH]; intros idx nodes cursor Hb Hnd;
    cbn [highlight_loop].
  - simpl. by rewrite Nat.add_0_r.
  - replace (idx + length (r :: ranges))%nat with (S idx + length ranges)%nat
      by (simpl; lia).
    unfold highlight_step.
    assert (∀ k, k ∈ node_key_of <$> nodes → k ≠ KeyT idx ∧ k ≠ KeyM idx) as Hfresh.
    { intros k Hk. rewrite Forall_forall in Hb. specialize (Hb k Hk).
      split; intros ->; simpl in Hb; lia. }
    assert (Forall (key_below (S idx)) (node_key_of <$> nodes)) as Hb'.
    { eapply Forall_impl; [exact Hb|]. intros [i|i|]; simpl; lia. }
    case_bool_decide; apply IH.
    + rewrite !fmap_app. simpl. rewrite !Forall_app. split_and!; [done|..];
        repeat constructor; simpl; lia.
    + rewrite !fmap_app. simpl. rewrite <- (assoc_L app). simpl.
      apply NoDup_app. split_and!; [done| |].
      * intros k Hk Hin. destruct (Hfresh k Hk) as [H1 H2].
        apply elem_of_cons in Hin as [->|Hin]; [done|].
        apply list_elem_of_singleton in Hin. done.
      * apply NoDup_cons. split; [|apply NoDup_singleton].
        intros Hin. apply list_elem_of_singleton in Hin. done.
    + rewrite !fmap_app. simpl. rewrite !Forall_app. split; [done|].
      repeat constructor; simpl; lia.
    + rewrite !fmap_app. simpl. apply NoDup_app. split_and!; [done| |apply NoDup_singleton].
      intros k Hk Hin. destruct (Hfresh k Hk) as [H1 H2].
      apply list_elem_of_singleton in Hin. done.
Qed.

(** X15. The nodes highlightByRanges returns have keys that differ from
    one another, whatever the ranges: [t-i] and [m-i] for the range [i],
    and [tail]. *)
Theorem highlightByRanges_keys_differ text ranges :
  match highlightByRanges text ranges with
  | RText _ => True
  | RNodes nodes => NoDup (node_key_of <$> nodes)
  end.
Proof.
  destruct ranges as [|r ranges]; [done|]. unfold highlightByRanges.
  pose proof (highlight_loop_keys text (r :: ranges) 0 [] 0) as Hk.
  destruct (highlight_loop text 0 (r :: ranges) ([], 0)) as [nodes cursor].
  destruct Hk as [Hb Hnd]; [by constructor|by constructor|]. simpl in Hb, Hnd.
  case_bool_decide; [|done]. rewrite fmap_app. simpl.
  apply NoDup_app. split_and!; [done| |apply NoDup_singleton].
  intros k Hk Hin. apply list_elem_of_singleton in Hin. subst k.
  rewrite Forall_forall in Hb. by apply Hb in Hk.
Qed.


(** ** The overlap computation, from the texts to the rendered nodes *)

Lemma merge_fold_bounds lo hi cur rest :
  Forall (λ s, lo <= start s ∧ end_ s <= hi) (cur :: rest) →
  Forall (λ s, lo <= start s ∧ end_ s <= hi) (merge_fold cur rest).
Proof.
  revert cur. induction rest as [|next rest IH]; intros cur Hb; simpl; [done|].
  apply Forall_cons in Hb as [Hcur Hb]. pose proof Hb as Hb'.
  apply Forall_cons in Hb' as [Hnext Hrest]. case_bool_decide.
  - apply IH. constructor; [simpl; lia|done].
  - constructor; [done|]. by apply IH.
Qed.

Lemma merge_spec_bounds lo hi ranges :
  Forall (λ s, lo <= start s ∧ end_ s <= hi) ranges →
  Forall (λ s, lo <= start s ∧ end_ s <= hi) (merge_spec ranges).
Proof.
  intros Hb. unfold merge_spec. rewrite <- (sort_by_perm start ranges) in Hb.
  destruct (sort_by start ranges) as [|s0 rest]; [done|]. by apply merge_fold_bounds.
Qed.

Lemma block_range_emit_inv spans sd block s :
  block_range spans sd block = Emit s →
  ∃ first last,
    first ∈ spans ∧ last ∈ spans ∧ s = mkTextSpan (tok_start first) (tok_end last).
Proof.
  unfold block_range. destruct (_ || _); [done|].
  destruct (zlookup spans (side_start sd block)) as [first|] eqn:Hf; [|done].
  destruct (zlookup spans (_ - 1)) as [last|] eqn:Hl; [|done].
  intros [= <-]. exists first, last. unfold zlookup in Hf, Hl.
  destruct (decide (0 <= side_start sd block)); [|done].
  destruct (decide (0 <= side_start sd block + size block - 1)); [|done].
  split_and!; [by eapply list_elem_of_lookup_2..|done].
Qed.

(** The spans pushed for blocks of at least one token, on the tokens of
    a text, are spans of the text. *)
Lemma emitted_in_text text sd blocks :
  Forall (λ b, 1 <= size b) blocks →
  Forall (λ s, 0 <= start s ∧ start s <= end_ s ∧ end_ s <= Z.of_nat (length text))
    (emitted (tokenizeWithSpans text) sd blocks).
Proof.
  intros Hsz. apply Forall_forall. intros s Hs. unfold emitted in Hs.
  apply list_elem_of_omap in Hs as (b & Hb & Hemit).
  destruct (block_range _ sd b) as [|s'|] eqn:E; simplify_eq.
  rewrite Forall_forall in Hsz.
  pose proof (block_range_well_formed _ sd b s (tokenizeWithSpans_ordered text)
                (Hsz b Hb) E) as Hwf.
  apply block_range_emit_inv in E as (first & last & Hf & Hl & ->).
  destruct (tokenize_from_bounds text 0 []) as [Hbounds _].
  rewrite Forall_forall in Hbounds.
  pose proof (Hbounds first Hf). pose proof (Hbounds last Hl).
  unfold well_formed in Hwf. simpl in *. lia.
Qed.

Lemma Sorted_gap_weaken l : Sorted gap l → Sorted (λ x y, end_ x <= start y) l.
Proof.
  induction 1 as [|x l Hs IH Hhd]; constructor; [done|].
  destruct Hhd as [|y l Hxy]; constructor. unfold gap in Hxy. lia.
Qed.

(** The nodes of the renderer make up the text, for spans of the text
    each of which ends at or before the start of the next. *)
Lemma highlight_rendered text ranges :
  Forall (λ r, 0 <= start r ∧ start r <= end_ r ∧ end_ r <= Z.of_nat (length text)) ranges →
  Sorted (λ x y, end_ x <= start y) ranges →
  rendered_text (highlightByRanges text ranges) = text.
Proof.
  intros Hin Hs. destruct ranges as [|r ranges]; [done|]. unfold highlightByRanges.
  pose proof (highlight_loop_text text (r :: ranges) 0 [] 0) as Hloop.
  destruct (highlight_loop text 0 (r :: ranges) ([], 0)) as [nodes cursor].
  destruct Hloop as [Hc Hnodes]; [lia|done|done| |done|].
  { simpl. rewrite take_0. constructor; [|done].
    apply Forall_cons in Hin as [(? & _) _]. done. }
  simpl in *. case_bool_decide as Htail.
  - rewrite fmap_app, concat_app. simpl. rewrite app_nil_r, Hnodes.
    unfold slice_from. rewrite slice_in_range by lia.
    rewrite (take_ge (drop _ _)) by (rewrite length_drop; lia). apply take_drop.
  - rewrite Hnodes. apply take_ge. lia.
Qed.

(** When the matcher returns blocks of at least one token, the
    computation of the panel returns, for each side, the merge of the
    spans of these blocks on the tokens of that side. *)
Lemma overlapRanges_values fuel h human ai blocks :
  findMatchingBlocks fuel (token <$> tokenizeWithSpans human)
    (token <$> tokenizeWithSpans ai) 3 = Some blocks →
  Forall (λ b, 1 <= size b) blocks →
  ∃ h' hr ar,
    overlapRanges fuel h human ai = Some (h', (hr, ar)) ∧
    values h' hr = merge_spec (emitted (tokenizeWithSpans human) SideA blocks) ∧
    values h' ar = merge_spec (emitted (tokenizeWithSpans ai) SideB blocks).
Proof.
  intros Hrun Hsz.
  assert (∀ spans sd, Forall (λ b, block_range spans sd b ≠ Throw) blocks) as Hno.
  { intros spans sd. eapply Forall_impl; [exact Hsz|]. intros b.
    apply block_range_no_throw. }
  destruct (blocksToCharRanges_emitted h blocks (tokenizeWithSpans human) SideA (Hno _ _))
    as (h1 & hr & E1 & Hv1 & _ & Hhr & _).
  destruct (blocksToCharRanges_emitted h1 blocks (tokenizeWithSpans ai) SideB (Hno _ _))
    as (h2 & ar & E2 & Hv2 & _ & _ & Hframe).
  exists h2, hr, ar. split_and!; [| |done].
  - unfold overlapRanges. rewrite Hrun. simpl. rewrite E1. simpl. by rewrite E2.
  - rewrite <- Hv1. apply values_ext. eapply Forall_impl; [exact Hhr|].
    intros l Hl. by apply Hframe.
Qed.

Lemma overlapRanges_blocks human ai :
  ∃ blocks,
    (∀ fuel, (2 * length (tokenizeWithSpans human) + 1 <= fuel)%nat →
       findMatchingBlocks fuel (token <$> tokenizeWithSpans human)
         (token <$> tokenizeWithSpans ai) 3 = Some blocks) ∧
    Forall (valid_block (token <$> tokenizeWithSpans human)
              (token <$> tokenizeWithSpans ai) 3) blocks.
Proof.
  destruct (fmb_blocks (token <$> tokenizeWithSpans human)
              (token <$> tokenizeWithSpans ai) 3 ltac:(lia)) as (bs & Hrun & Hvalid & _).
  exists bs. split; [|done]. intros fuel Hfuel. apply Hrun. by rewrite length_fmap.
Qed.

(** X16. The ranges the panel computes fit its renderer: for every two
    texts the computation ends without an exception, and highlighting
    each text with its ranges gives nodes whose texts, put together, are
    that text. *)
Theorem overlapRanges_render (h : list TextSpan) (human ai : jsstring) :
  ∃ h' hr ar,
    (∀ fuel, (2 * length (tokenizeWithSpans human) + 1 <= fuel)%nat →
       overlapRanges fuel h human ai = Some (h', (hr, ar))) ∧
    rendered_text (highlightByRanges human (values h' hr)) = human ∧
    rendered_text (highlightByRanges ai (values h' ar)) = ai.
Proof.
  destruct (overlapRanges_blocks human ai) as (bs & Hrun & Hvalid).
  assert (Forall (λ b, 1 <= size b) bs) as Hsz.
  { eapply Forall_impl; [exact Hvalid|]. intros b [? _]. lia. }
  destruct (overlapRanges_values (2 * length (tokenizeWithSpans human) + 1) h human ai bs)
    as (h' & hr & ar & Hov & Hhr & Har); [by apply Hrun|done|].
  exists h', hr, ar. split_and!.
  - intros fuel Hfuel.
    destruct (overlapRanges_values fuel h human ai bs) as (h2 & hr2 & ar2 & Hov2 & _);
      [by apply Hrun|done|].
    unfold overlapRanges in *. rewrite Hrun in Hov, Hov2 |- * by lia. by rewrite Hov.
  - rewrite Hhr. apply highlight_rendered.
    + pose proof (emitted_in_text human SideA bs Hsz) as Hb.
      apply Forall_forall. intros s Hs.
      pose proof (merge_spec_bounds 0 (Z.of_nat (length human)) _
                    (Forall_impl _ _ _ Hb (λ s H, conj (proj1 H) (proj2 (proj2 H))))) as H1.
      pose proof (merge_spec_well_formed _
                    (Forall_impl _ _ _ Hb (λ s H, proj1 (proj2 H)))) as H2.
      rewrite Forall_forall in H1, H2. specialize (H1 s Hs). specialize (H2 s Hs).
      unfold well_formed in H2. lia.
    + apply Sorted_gap_weaken, merge_spec_sorted.
  - rewrite Har. apply highlight_rendered.
    + pose proof (emitted_in_text ai SideB bs Hsz) as Hb.
      apply Forall_forall. intros s Hs.
      pose proof (merge_spec_bounds 0 (Z.of_nat (length ai)) _
                    (Forall_impl _ _ _ Hb (λ s H, conj (proj1 H) (proj2 (proj2 H))))) as H1.
      pose proof (merge_spec_well_formed _
                    (Forall_impl _ _ _ Hb (λ s H, proj1 (proj2 H)))) as H2.
      rewrite Forall_forall in H1, H2. specialize (H1 s Hs). specialize (H2 s Hs).
      unfold well_formed in H2. lia.
    + apply Sorted_gap_weaken, merge_spec_sorted.
Qed.

(** X17. With fewer than three tokens in one of the texts, an empty
    text for instance, there is no range on either side, and the store
    is as before. *)
Theorem overlapRanges_short_text (h : list TextSpan) (human ai : jsstring) fuel :
  (length (tokenizeWithSpans human) < 3)%nat ∨ (length (tokenizeWithSpans ai) < 3)%nat →
  (2 * length (tokenizeWithSpans human) + 1 <= fuel)%nat →
  overlapRanges fuel h human ai = Some (h, ([], [])).
Proof.
  intros Hshort Hfuel.
  destruct (overlapRanges_blocks human ai) as (bs & Hrun & Hvalid).
  assert (bs = []) as ->.
  { destruct bs as [|m bs]; [done|]. exfalso.
    apply Forall_cons in Hvalid as [(Hsz & (H1 & H2 & H3 & H4) & _) _].
    simpl in *. rewrite !length_fmap in *. lia. }
  unfold overlapRanges. by rewrite Hrun.
Qed.

(** The theorem on the empty text and "alpha beta gamma". *)
Lemma overlapRanges_short_text_witness :
  overlapRanges 1 [] [] (js "alpha beta gamma") = Some ([], ([], [])).
Proof.
  apply (overlapRanges_short_text [] [] (js "alpha beta gamma") 1).
  - left. simpl. lia.
  - simpl. lia.
Defined.

(** X18. A text of at least three tokens compared with itself gives one
    range on each side, from the start of its first token to the end of
    its last token. *)
Theorem overlapRanges_same_text (h : list TextSpan) (text : jsstring) fuel :
  (3 <= length (tokenizeWithSpans text))%nat → (3 <= fuel)%nat →
  ∃ t_first t_last h' hr ar,
    head (tokenizeWithSpans text) = Some t_first ∧
    last (tokenizeWithSpans text) = Some t_last ∧
    overlapRanges fuel h text text = Some (h', (hr, ar)) ∧
    values h' hr = [mkTextSpan (tok_start t_first) (tok_end t_last)] ∧
    values h' ar = [mkTextSpan (tok_start t_first) (tok_end t_last)].
Proof.
  intros Hlen Hfuel. set (spans := tokenizeWithSpans text) in *.
  pose proof (fmb_same_array (token <$> spans) 3 fuel ltac:(lia)
                ltac:(rewrite length_fmap; lia) Hfuel) as Hrun.
  rewrite length_fmap in Hrun.
  destruct (overlapRanges_values fuel h text text _ Hrun) as (h' & hr & ar & Hov & Hhr & Har).
  { repeat constructor. simpl. lia. }
  fold spans in Hhr, Har.
  assert (∀ sd, block_within sd (length spans) (mkMatchBlock 0 0 (Z.of_nat (length spans))))
    as Hin by (intros []; unfold block_within; simpl; lia).
  assert (∃ t_first t_last,
            head spans = Some t_first ∧ last spans = Some t_last ∧
            ∀ sd, emitted spans sd [mkMatchBlock 0 0 (Z.of_nat (length spans))]
                  = [mkTextSpan (tok_start t_first) (tok_end t_last)])
    as (t_first & t_last & Hf & Hl & Hemit).
  { destruct (block_range_within spans SideA _ (Hin SideA))
      as (t_first & t_last & Hf & Hl & _).
    unfold zlookup in Hf, Hl. simpl in Hf, Hl. rewrite decide_True in Hl by lia.
    exists t_first, t_last. split_and!.
    - by rewrite head_lookup.
    - rewrite last_lookup. rewrite <- Hl. f_equal. lia.
    - intros sd. unfold emitted. simpl.
      destruct (block_range_within spans sd _ (Hin sd)) as (f' & l' & Hf' & Hl' & ->).
      unfold zlookup in Hf', Hl'. rewrite decide_True in Hl' by (destruct sd; simpl; lia).
      rewrite decide_True in Hf' by (destruct sd; simpl; lia).
      destruct sd; simpl in *; by simplify_eq. }
  exists t_first, t_last, h', hr, ar. rewrite Hhr, Har, !Hemit. by split_and!.
Qed.

(** The theorem on "the quick brown fox jumps", 24 units long. *)
Lemma overlapRanges_same_text_witness :
  (3 <= length (tokenizeWithSpans (js "the quick brown fox jumps")))%nat ∧ (3 <= 3)%nat ∧
  ∃ h' hr ar,
    overlapRanges 3 [] (js "the quick brown fox jumps") (js "the quick brown fox jumps")
    = Some (h', (hr, ar)) ∧
    values h' hr = [mkTextSpan 0 25] ∧ values h' ar = [mkTextSpan 0 25].
Proof.
  split; [simpl; lia|]. split; [lia|].
  destruct (overlapRanges_same_text [] (js "the quick brown fox jumps") 3)
    as (t_first & t_last & h' & hr & ar & Hf & Hl & Hov & Hhr & Har); [simpl; lia|lia|].
  exists h', hr, ar. vm_compute in Hf, Hl.
  injection Hf as <-. injection Hl as <-.
  split_and!; [exact Hov|exact Hhr|exact Har].
Defined.


(** ** The panel: what it reads from the log *)

Lemma head_sort_by_least {A} (key : A → Z) (l : list A) x :
  head (sort_by key l) = Some x → x ∈ l ∧ ∀ y, y ∈ l → key x <= key y.
Proof.
  intros Hhd. pose proof (sort_by_perm key l) as Hperm.
  pose proof (sort_by_sorted key l) as Hs.
  destruct (sort_by key l) as [|z rest]; simplify_eq/=.
  split.
  - rewrite <- Hperm. by left.
  - intros y Hy. rewrite <- Hperm in Hy. apply StronglySorted_inv in Hs as [_ Hz].
    apply elem_of_cons in Hy as [->|Hy]; [lia|].
    rewrite Forall_forall in Hz. by apply Hz.
Qed.

Lemma head_sort_by_None {A} (key : A → Z) (l : list A) :
  head (sort_by key l) = None → l = [].
Proof.
  intros Hhd. apply head_None in Hhd. pose proof (sort_by_perm key l) as Hperm.
  rewrite Hhd in Hperm. by apply Permutation_nil_l in Hperm.
Qed.

(** X19. The start of a session is the time of its earliest
    [SESSION_STARTED] event when it has one, and the time of its
    earliest event otherwise; it is 0 for a session without events. *)
Theorem sessionStartTime_earliest (logs : list WritingEvent) :
  let starts :=
    filter (λ l, event_name l = EventName.SYSTEM
                 ∧ event_result l = js "SESSION_STARTED") logs in
  (starts ≠ [] →
   (∃ e, e ∈ starts ∧ sessionStartTime logs = event_start_time e) ∧
   ∀ e, e ∈ starts → sessionStartTime logs <= event_start_time e) ∧
  (starts = [] → logs ≠ [] →
   (∃ e, e ∈ logs ∧ sessionStartTime logs = event_start_time e) ∧
   ∀ e, e ∈ logs → sessionStartTime logs <= event_start_time e) ∧
  (logs = [] → sessionStartTime logs = 0).
Proof.
  intros starts. unfold sessionStartTime. fold starts. split_and!.
  - intros Hne. destruct (head (sort_by event_start_time starts)) as [e|] eqn:E.
    + apply head_sort_by_least in E as [He Hmin]. split; [by exists e|done].
    + by apply head_sort_by_None in E.
  - intros -> Hne. simpl.
    destruct (head (sort_by event_start_time logs)) as [e|] eqn:E.
    + apply head_sort_by_least in E as [He Hmin]. split; [by exists e|done].
    + by apply head_sort_by_None in E.
  - by intros ->.
Qed.

(** Two events of a session, a login at 5 and the start at 10: the
    session starts at 10. *)
Lemma sessionStartTime_earliest_witness :
  sessionStartTime
    [mkWritingEvent (js "s") (js "u") 5 EventName.SYSTEM EventBy.USER (js "LOGIN: u");
     mkWritingEvent (js "s") (js "u") 10 EventName.SYSTEM EventBy.SYSTEM
       (js "SESSION_STARTED")] = 10.
Proof.
  destruct (sessionStartTime_earliest
    [mkWritingEvent (js "s") (js "u") 5 EventName.SYSTEM EventBy.USER (js "LOGIN: u");
     mkWritingEvent (js "s") (js "u") 10 EventName.SYSTEM EventBy.SYSTEM
       (js "SESSION_STARTED")]) as [H _].
  destruct H as [(e & He & ->) _]; [discriminate|].
  vm_compute in He. apply list_elem_of_singleton in He. by subst e.
Defined.

Lemma word_count_nonneg text : 0 <= word_count text.
Proof. unfold word_count. lia. Qed.

Lemma Forall2_transfer {A B} (P : A → B → Prop) (Q : A → Prop) (R : B → Prop) l k :
  Forall2 P l k → Forall Q l → (∀ x y, P x y → Q x → R y) → Forall R k.
Proof.
  intros H2 HQ Himp. induction H2 as [|x y l k Hxy _ IH]; [constructor|].
  apply Forall_cons in HQ as [Hx HQ]. constructor; [by eapply Himp|by apply IH].
Qed.

Lemma series_from_spec round_div start total events :
  StronglySorted (λ e1 e2, event_start_time e1 <= event_start_time e2) events →
  StronglySorted (λ p q, time p <= time q ∧ words p <= words q)
    (series_from round_div start total events) ∧
  Forall2 (λ e p, time p = event_start_time e ∧ 0 <= elapsedSec p ∧ total <= words p
                  ∧ word_count (event_result e) <= words p)
    events (series_from round_div start total events).
Proof.
  intros Hs. revert total. induction Hs as [|e events Hs IH He]; intros total; simpl.
  - split; constructor.
  - destruct (IH (Z.max total (word_count (event_result e)))) as [IH1 IH2]. split.
    + constructor; [done|].
      eapply Forall2_transfer; [exact IH2|exact He|].
      simpl. intros e' p (-> & _ & Hw & _) Hle. lia.
    + constructor; [simpl; lia|].
      eapply Forall2_impl; [exact IH2|]. simpl. intros; lia.
Qed.

(** X20. The series of the chart has one point for each essay event of
    the session, in the order of time, at the time of the event; the
    number of words of a point is at least that of its event and never
    less than at the point before; the seconds elapsed are not negative.
    This holds whatever [Math.round] gives. *)
Theorem cumulativeSeries_never_decreases round_div (logs : list WritingEvent) (start : Z) :
  StronglySorted (λ p q, time p <= time q ∧ words p <= words q)
    (cumulativeSeries round_div logs start) ∧
  Forall2 (λ e p, time p = event_start_time e ∧ 0 <= elapsedSec p ∧ 0 <= words p
                  ∧ word_count (event_result e) <= words p)
    (sort_by event_start_time
       (filter (λ l, event_name l = EventName.ESSAY_WRITING) logs))
    (cumulativeSeries round_div logs start).
Proof. apply series_from_spec, sort_by_sorted. Qed.

Lemma max_with_1_bounds xs : 1 <= max_with_1 xs ∧ Forall (λ x, x <= max_with_1 xs) xs.
Proof.
  induction xs as [|x xs [IH1 IH2]]; simpl; [split; [lia|constructor]|].
  split; [lia|]. constructor; [lia|].
  eapply Forall_impl; [exact IH2|]. simpl. intros; lia.
Qed.

(** X21. The bounds of the chart hold the series: for a series that is
    not empty, [maxWords] and [endSeconds] are at least 1 and no point
    has more words than [maxWords] nor more seconds than [endSeconds]. *)
Theorem chartMeta_bounds round_div (series : list Point) :
  series ≠ [] →
  1 <= maxWords (chartMeta round_div series) ∧
  1 <= endSeconds (chartMeta round_div series) ∧
  Forall (λ p, words p <= maxWords (chartMeta round_div series)
               ∧ elapsedSec p <= endSeconds (chartMeta round_div series)) series.
Proof.
  intros Hne. destruct series as [|p0 series]; [done|].
  unfold chartMeta. cbn [maxWords endSeconds].
  destruct (max_with_1_bounds (words <$> p0 :: series)) as [Hw1 Hw2].
  destruct (max_with_1_bounds (elapsedSec <$> p0 :: series)) as [He1 He2].
  split_and!; [done..|].
  rewrite Forall_fmap in Hw2, He2. apply Forall_forall. intros p Hp.
  rewrite Forall_forall in Hw2, He2. split; [by apply Hw2|by apply He2].
Qed.

(** The theorem on a series of two points, with the rounding of the
    exact quotient. *)
Lemma chartMeta_bounds_witness :
  [mkPoint 1000 0 3; mkPoint 4000 3 7] ≠ [] ∧
  maxWords (chartMeta (λ x d, (2 * x + d) `div` (2 * d)) [mkPoint 1000 0 3; mkPoint 4000 3 7])
  = 7 ∧
  Forall (λ p, words p <= 7 ∧ elapsedSec p <= 3) [mkPoint 1000 0 3; mkPoint 4000 3 7].
Proof.
  split; [discriminate|]. split; [reflexivity|].
  destruct (chartMeta_bounds (λ x d, (2 * x + d) `div` (2 * d))
              [mkPoint 1000 0 3; mkPoint 4000 3 7]) as (_ & _ & H); [discriminate|].
  exact H.
Defined.

Lemma tokens_shift d (l : list TokenSpan) : token <$> (shift_token d <$> l) = token <$> l.
Proof. rewrite <- list_fmap_compose. by apply list_fmap_ext. Qed.

Lemma tokens_sep_cons c t :
  is_word_unit c = false →
  token <$> tokenizeWithSpans (c :: t) = token <$> tokenizeWithSpans t.
Proof.
  intros Hc. change (c :: t) with ([] ++ c :: t).
  rewrite (tokenizeWithSpans_app_sep [] c t Hc). simpl. apply tokens_shift.
Qed.

(** X22. The tokens of the total output of the assistant are the tokens
    of its messages, one message after the other: the two line feeds
    between two messages give no token, so the last token of a message
    and the first token of the next are neighbours for the matcher. *)
Theorem totalAiOutput_tokens (outputs : list jsstring) :
  token <$> tokenizeWithSpans (totalAiOutput outputs)
  = concat ((λ o, token <$> tokenizeWithSpans o) <$> outputs).
Proof.
  unfold totalAiOutput. induction outputs as [|o outputs IH]; [done|].
  destruct outputs as [|o' outputs]; simpl.
  - by rewrite app_nil_r.
  - rewrite (tokenizeWithSpans_app_sep o 10 _ eq_refl). rewrite fmap_app, tokens_shift.
    f_equal. rewrite (tokens_sep_cons 10) by done. exact IH.
Qed.

Lemma strip_final_submission reason content :
  reason = js "USER_SUBMITTED" ∨ reason = js "TIME_LIMIT_EXPIRED" →
  is_submission (reason ++ js ": " ++ content) = true ∧
  strip_submission (reason ++ js ": " ++ content) = drop_spaces content.
Proof. intros [-> | ->]; by split. Qed.

(** X23. The panel reads back the essay that was submitted, without its
    leading white space: when the log of a session has the event of
    [handleFinalSubmission] and no other submission, the final
    submission of the panel is the content of the editor at that event,
    from its first unit that is not white space on. *)
Theorem finalHumanSubmission_reads_submission
    (logs1 logs2 : list WritingEvent) (sessionId userName reason content : jsstring) (now : Z) :
  reason = js "USER_SUBMITTED" ∨ reason = js "TIME_LIMIT_EXPIRED" →
  Forall (λ l, session_id l = sessionId → event_name l = EventName.SYSTEM →
               event_by l = EventBy.USER → is_submission (event_result l) = false)
    (logs1 ++ logs2) →
  finalHumanSubmission
    (sessionLogs
       (logs1 ++ [final_submission_event sessionId userName reason content now] ++ logs2)
       sessionId)
  = drop_spaces content.
Proof.
  intros Hreason Hothers.
  destruct (strip_final_submission reason content Hreason) as [Hsub Hstrip].
  set (e := final_submission_event sessionId userName reason content now).
  apply Forall_app in Hothers as [H1 H2].
  assert (∀ l : list WritingEvent,
            Forall (λ l, session_id l = sessionId → event_name l = EventName.SYSTEM →
                         event_by l = EventBy.USER → is_submission (event_result l) = false) l →
            filter (λ l, is_submission (event_result l) = true)
              (filter (λ l, event_name l = EventName.SYSTEM ∧ event_by l = EventBy.USER)
                 (filter (λ l, session_id l = sessionId) l)) = []) as Hnone.
  { intros l Hl. induction Hl as [|x l Hx _ IH]; [done|].
    rewrite filter_cons. case_decide as Hs; [|done].
    rewrite filter_cons. case_decide as Hn; [|done].
    rewrite filter_cons. case_decide as Hq; [|done].
    destruct Hn. rewrite Hx in Hq by done. done. }
  unfold finalHumanSubmission, sessionLogs.
  set (sorted := sort_by _ _).
  assert (filter (λ l, is_submission (event_result l) = true) sorted = [e]) as Hfind.
  { apply Permutation_singleton_r. unfold sorted. rewrite sort_by_perm.
    rewrite !filter_app, (Hnone logs1 H1), (Hnone logs2 H2).
    rewrite (filter_cons_True _ e) by done. rewrite filter_nil.
    rewrite (filter_cons_True _ e) by done. rewrite filter_nil.
    rewrite (filter_cons_True _ e) by done. by rewrite filter_nil. }
  rewrite Hfind. simpl.
  destruct Hreason as [-> | ->]; exact Hstrip.
Qed.

(** The theorem on a session with a login, an essay event and the
    submission of " my essay" at the end of the time limit. *)
Lemma finalHumanSubmission_reads_submission_witness :
  finalHumanSubmission
    (sessionLogs
       ([mkWritingEvent (js "s") (js "u") 1 EventName.SYSTEM EventBy.USER (js "LOGIN: u");
         mkWritingEvent (js "s") (js "u") 2 EventName.ESSAY_WRITING EventBy.USER (js "my")]
        ++ [final_submission_event (js "s") (js "u") (js "TIME_LIMIT_EXPIRED")
              (js " my essay") 3] ++ [])
       (js "s"))
  = js "my essay".
Proof.
  apply (finalHumanSubmission_reads_submission _ [] (js "s") (js "u")
           (js "TIME_LIMIT_EXPIRED") (js " my essay") 3).
  - by right.
  - repeat constructor; by intros.
Defined.

Lemma split_spaces_no_word piece in_space text :
  filter (λ w, w ≠ []) (split_spaces_from piece in_space text) = []
  ↔ piece = [] ∧ Forall (λ c, is_space_unit c = true) text.
Proof.
  revert piece in_space. induction text as [|c text IH]; intros piece in_space; simpl.
  - rewrite filter_cons, filter_nil. destruct piece as [|u piece].
    + by rewrite decide_False by (by intros ?).
    + rewrite decide_True by done. split; [done|]. by intros [? _].
  - destruct (is_space_unit c) eqn:Hc.
    + destruct in_space.
      * rewrite IH, Forall_cons. tauto.
      * rewrite filter_cons. destruct piece as [|u piece].
        -- rewrite decide_False by (by intros ?). rewrite IH, Forall_cons. tauto.
        -- rewrite decide_True by done. split; [done|]. by intros [? _].
    + rewrite IH, Forall_cons. split.
      * intros [Happ _]. by apply app_nil in Happ as [_ ?].
      * intros [_ [? _]]. congruence.
Qed.

(** X24. A text counts zero words exactly when it has nothing but white
    space, the empty text for instance. *)
Theorem word_count_zero_iff text :
  word_count text = 0 ↔ Forall (λ c, is_space_unit c = true) text.
Proof.
  unfold word_count. split.
  - intros H. apply (split_spaces_no_word [] false text). apply nil_length_inv. lia.
  - intros H. by rewrite (proj2 (split_spaces_no_word [] false text)).
Qed.

(** X25. Without a submission event the final submission is the text of
    the latest essay event of the session, and the empty text when
    there is no essay event. *)
Theorem finalHumanSubmission_latest_essay (logs : list WritingEvent) :
  Forall (λ l, event_name l = EventName.SYSTEM → event_by l = EventBy.USER →
               is_submission (event_result l) = false) logs →
  let essays := filter (λ l, event_name l = EventName.ESSAY_WRITING) logs in
  (essays = [] → finalHumanSubmission logs = []) ∧
  (essays ≠ [] →
   ∃ e, e ∈ essays ∧ finalHumanSubmission logs = event_result e ∧
        ∀ e', e' ∈ essays → event_start_time e' <= event_start_time e).
Proof.
  intros Hnone essays. unfold finalHumanSubmission. fold essays.
  assert (filter (λ l, is_submission (event_result l) = true)
            (sort_by (λ l, - event_start_time l)
               (filter (λ l, event_name l = EventName.SYSTEM ∧ event_by l = EventBy.USER)
                  logs)) = []) as ->.
  { apply Permutation_nil_r. rewrite sort_by_perm.
    apply Permutation_nil_r. clear essays.
    induction Hnone as [|x l Hx _ IH]; [done|].
    rewrite filter_cons. case_decide as Hn; [|done].
    rewrite filter_cons. case_decide as Hq; [|done].
    destruct Hn. rewrite Hx in Hq by done. done. }
  simpl. split.
  - by intros ->.
  - intros Hne. destruct (head (sort_by _ essays)) as [e|] eqn:E.
    + apply head_sort_by_least in E as [He Hmin]. exists e. split_and!; [done..|].
      intros e' He'. specialize (Hmin e' He'). simpl in Hmin. lia.
    + by apply head_sort_by_None in E.
Qed.

(** The theorem on a session with two essay events: the later one is
    the final submission. *)
Lemma finalHumanSubmission_latest_essay_witness :
  finalHumanSubmission
    [mkWritingEvent (js "s") (js "u") 7 EventName.ESSAY_WRITING EventBy.USER (js "my essay");
     mkWritingEvent (js "s") (js "u") 2 EventName.ESSAY_WRITING EventBy.USER (js "my")]
  = js "my essay".
Proof.
  destruct (finalHumanSubmission_latest_essay
    [mkWritingEvent (js "s") (js "u") 7 EventName.ESSAY_WRITING EventBy.USER (js "my essay");
     mkWritingEvent (js "s") (js "u") 2 EventName.ESSAY_WRITING EventBy.USER (js "my")])
    as [_ H].
  - repeat constructor; intros; discriminate.
  - destruct H as (e & He & -> & Hmax); [discriminate|].
    vm_compute in He.
    apply elem_of_cons in He as [->|He]; [reflexivity|].
    apply list_elem_of_singleton in He. subst e. exfalso.
    specialize (Hmax (mkWritingEvent (js "s") (js "u") 7 EventName.ESSAY_WRITING
                        EventBy.USER (js "my essay"))).
    simpl in Hmax. assert (7 <= 2) by (apply Hmax; by left). lia.
Defined.

Lemma merge_fold_endpoints (P Q : Z → Prop) cur rest :
  Forall (λ s, P (start s) ∧ Q (end_ s)) (cur :: rest) →
  Forall (λ s, P (start s) ∧ Q (end_ s)) (merge_fold cur rest).
Proof.
  revert cur. induction rest as [|next rest IH]; intros cur Hb; simpl; [done|].
  apply Forall_cons in Hb as [[Hc1 Hc2] Hb]. pose proof Hb as Hb'.
  apply Forall_cons in Hb' as [[Hn1 Hn2] Hrest]. case_bool_decide.
  - apply IH. constructor; [|done]. simpl. split; [done|].
    destruct (Z.max_spec (end_ cur) (end_ next)) as [[_ ->]|[_ ->]]; done.
  - constructor; [done|]. by apply IH.
Qed.

Lemma merge_spec_endpoints (P Q : Z → Prop) ranges :
  Forall (λ s, P (start s) ∧ Q (end_ s)) ranges →
  Forall (λ s, P (start s) ∧ Q (end_ s)) (merge_spec ranges).
Proof.
  intros Hb. unfold merge_spec. rewrite <- (sort_by_perm start ranges) in Hb.
  destruct (sort_by start ranges) as [|s0 rest]; [done|]. by apply merge_fold_endpoints.
Qed.

Lemma emitted_token_ends spans sd blocks :
  Forall (λ s, (∃ t, t ∈ spans ∧ start s = tok_start t)
               ∧ (∃ t, t ∈ spans ∧ end_ s = tok_end t))
    (emitted spans sd blocks).
Proof.
  apply Forall_forall. intros s Hs. unfold emitted in Hs.
  apply list_elem_of_omap in Hs as (b & Hb & Hemit).
  destruct (block_range spans sd b) as [|s'|] eqn:E; simplify_eq.
  apply block_range_emit_inv in E as (t1 & t2 & H1 & H2 & ->).
  split; [by exists t1|by exists t2].
Qed.

(** X26. The ranges of the panel are made of whole tokens: each range
    of a text starts where a token of that text starts and ends where a
    token of that text ends, so no word is highlighted in part. *)
Theorem overlapRanges_whole_tokens (h : list TextSpan) (human ai : jsstring) :
  ∃ h' hr ar,
    (∀ fuel, (2 * length (tokenizeWithSpans human) + 1 <= fuel)%nat →
       overlapRanges fuel h human ai = Some (h', (hr, ar))) ∧
    Forall (λ s, (∃ t, t ∈ tokenizeWithSpans human ∧ start s = tok_start t)
                 ∧ (∃ t, t ∈ tokenizeWithSpans human ∧ end_ s = tok_end t))
      (values h' hr) ∧
    Forall (λ s, (∃ t, t ∈ tokenizeWithSpans ai ∧ start s = tok_start t)
                 ∧ (∃ t, t ∈ tokenizeWithSpans ai ∧ end_ s = tok_end t))
      (values h' ar).
Proof.
  destruct (overlapRanges_blocks human ai) as (bs & Hrun & Hvalid).
  assert (Forall (λ b, 1 <= size b) bs) as Hsz.
  { eapply Forall_impl; [exact Hvalid|]. intros b [? _]. lia. }
  destruct (overlapRanges_values (2 * length (tokenizeWithSpans human) + 1) h human ai bs)
    as (h' & hr & ar & Hov & Hhr & Har); [by apply Hrun|done|].
  exists h', hr, ar. split_and!.
  - intros fuel Hfuel.
    destruct (overlapRanges_values fuel h human ai bs) as (h2 & hr2 & ar2 & Hov2 & _);
      [by apply Hrun|done|].
    unfold overlapRanges in *. rewrite Hrun in Hov, Hov2 |- * by lia. by rewrite Hov.
  - rewrite Hhr.
    apply (merge_spec_endpoints
             (λ x, ∃ t, t ∈ tokenizeWithSpans human ∧ x = tok_start t)
             (λ x, ∃ t, t ∈ tokenizeWithSpans human ∧ x = tok_end t)).
    apply emitted_token_ends.
  - rewrite Har.
    apply (merge_spec_endpoints
             (λ x, ∃ t, t ∈ tokenizeWithSpans ai ∧ x = tok_start t)
             (λ x, ∃ t, t ∈ tokenizeWithSpans ai ∧ x = tok_end t)).
    apply emitted_token_ends.
Qed.

(** The token texts of "Ab c" are the lower-case forms of their spans. *)
Lemma tokenizeWithSpans_token_text_witness :
  Forall (λ t, token t = lower_unit <$> slice (js "Ab c") (tok_start t) (tok_end t))
    (tokenizeWithSpans (js "Ab c")).
Proof.
  eapply Forall_impl; [apply (tokenizeWithSpans_token_text (js "Ab c"))|].
  intros t (H & _). exact H.
Defined.

(** Two spaces count zero words. *)
Lemma word_count_zero_iff_witness :
  Forall (λ c, is_space_unit c = true) (js "  ") ∧ word_count (js "  ") = 0.
Proof.
  assert (Forall (λ c, is_space_unit c = true) (js "  ")) as H
    by (repeat constructor).
  split; [exact H|]. exact (proj2 (word_count_zero_iff (js "  ")) H).
Defined.
